(** * httpqotdd: the quote parser and the quote store of [main.go]

    A shallow embedding of the Go program.  Go strings are byte strings and
    are modelled by [string] (a list of 8-bit characters); slices by lists;
    the pointers [quotes : *[]string] and [quote : *string] by addresses
    into an append-only heap of slices; [rand.Intn] by an explicit random
    source that is threaded through the calls; run-time panics by a small
    result monad.  The reader-writer lock [quotesM] makes each operation a
    single atomic step on the store, which is how the operations appear
    here. *)

From Stdlib Require Import Ascii NArith ZArith Lia.
From stdpp Require Import base option list strings.

Local Open Scope Z_scope.
Local Open Scope nat_scope.

(** ** Byte strings: the pieces of [strings] and [bufio] that the parser uses *)

Module GoStrings.

Definition LF : ascii := Ascii.ascii_of_nat 10.
Definition CR : ascii := Ascii.ascii_of_nat 13.

(** The one-byte string holding a line feed, Go's ["\n"]. *)
Definition nl : string := String LF "".

(** [len(s)] *)
Definition len (s : string) : nat := String.length s.

(** [strings.HasPrefix(s, prefix)] *)
Definition HasPrefix (s prefix : string) : bool := String.prefix prefix s.

(** [s[1:]], used only where [s] is known to be non-empty; Go panics on
    the empty string, which the caller's prefix test excludes. *)
Definition from1 (s : string) : string :=
  match s with
  | EmptyString => EmptyString
  | String _ t => t
  end.

(** [strings.Join(elems, sep)] *)
Fixpoint Join (elems : list string) (sep : string) : string :=
  match elems with
  | [] => ""
  | [x] => x
  | x :: xs => x +:+ sep +:+ Join xs sep
  end.

(** Does the byte [c] occur in [s]? *)
Fixpoint contains (c : ascii) (s : string) : bool :=
  match s with
  | EmptyString => false
  | String d t => if Ascii.eqb d c then true else contains c t
  end.

(** The last byte of [s], if any. *)
Fixpoint lastByte (s : string) : option ascii :=
  match s with
  | EmptyString => None
  | String c EmptyString => Some c
  | String _ t => lastByte t
  end.

End GoStrings.
Import GoStrings.

Module Bufio.

(** [bufio.MaxScanTokenSize]: the scanner's buffer never grows beyond
    64 KiB. *)
Definition MaxScanTokenSize : N := 65536.

(** [dropCR]: drop one trailing carriage return. *)
Fixpoint dropCR (data : string) : string :=
  match data with
  | EmptyString => EmptyString
  | String c t =>
      match t with
      | EmptyString => if Ascii.eqb c CR then EmptyString else data
      | String _ _ => String c (dropCR t)
      end
  end.

(** [bytes.IndexByte(data, '\n')] followed by the two slicings of
    [ScanLines]: the bytes before the first line feed, and the bytes
    after it when there is one. *)
Fixpoint cutLine (data : string) : string * option string :=
  match data with
  | EmptyString => (EmptyString, None)
  | String c t =>
      if Ascii.eqb c LF then (EmptyString, Some t)
      else let '(l, r) := cutLine t in (String c l, r)
  end.

(** A line can be delivered when it fits in the buffer together with its
    terminator, that is when it is shorter than [MaxScanTokenSize].  (A
    final unterminated line of exactly that size is delivered only by
    readers that report end of file along with the last bytes; [os.File]
    does not, and this model follows it.) *)
Definition fits (line : string) : bool :=
  (N.of_nat (len line) <? MaxScanTokenSize)%N.

(** One call of [Scanner.Scan] with the split function [ScanLines], on a
    reader that still holds [data]: the token that [Text] then returns
    and the data left in the reader, or [None] when [Scan] returns false
    (end of input, or [ErrTooLong], which [parseQuotes] never looks at). *)
Definition Scan (data : string) : option (string * string) :=
  match cutLine data with
  | (line, Some rest) =>
      if fits line then Some (dropCR line, rest) else None
  | (line, None) =>
      if (len line =? 0)%nat then None
      else if fits line then Some (dropCR line, EmptyString) else None
  end.

(** The tokens of the loop [for scan.Scan() { ... scan.Text() ... }]. *)
Fixpoint scanAll (fuel : nat) (data : string) : list string :=
  match fuel with
  | 0 => []
  | S fuel' =>
      match Scan data with
      | None => []
      | Some (tok, rest) => tok :: scanAll fuel' rest
      end
  end.

(** Every successful [Scan] consumes at least one byte, so one unit of
    fuel per byte, and one for the last call, is enough
    (see [tokens_run]). *)
Definition tokens (data : string) : list string :=
  scanAll (S (len data)) data.

(** The run of a scanner as a relation: the tokens delivered until [Scan]
    returns false. *)
Inductive ScanRun : string -> list string -> Prop :=
| ScanRun_stop data :
    Scan data = None -> ScanRun data []
| ScanRun_token data tok rest toks :
    Scan data = Some (tok, rest) -> ScanRun rest toks ->
    ScanRun data (tok :: toks).

End Bufio.
Import Bufio.

(** ** [parseQuotes] *)

(** Go's [error] values that [fetchQuotes] can return. *)
Inductive error : Type :=
| ErrOpen (file : string)        (* os.Open failed *)
| ErrGet (url : string)          (* http.Get failed *)
| ErrStatus (code : nat).        (* "failed fetching quote source: <code>" *)

(** The body of the scanning loop, lines 111-128, on the loop's two
    variables [qs] and [acc]. *)
Definition parseLine (st : list string * list string) (line : string)
  : list string * list string :=
  let '(qs, acc) := st in
  if HasPrefix line "#" then (qs, acc)
  else
    let line := if HasPrefix line "\#" then from1 line else line in
    if (0 <? len line)%nat then
      let line := if String.eqb line "\" then ""%string else line in
      (qs, acc ++ [line])
    else if (0 <? length acc)%nat then
      (qs ++ [Join acc nl], [])
    else (qs, acc).

(** The loop, from [qs := []string{}] and [acc := []string{}]. *)
Definition parseLoop (lines : list string) : list string * list string :=
  fold_left parseLine lines ([], []).

(** [parseQuotes(r)], for a reader [r] that delivers the bytes [data]. *)
Definition parseQuotes (data : string) : list string * option error :=
  let '(qs, acc) := parseLoop (tokens data) in
  (qs ++ [Join acc nl], None).

(** ** Panics and the random source *)

(** A computation that returns a value or panics (nil dereference, index
    out of range, [rand.Intn] on a non-positive bound). *)
Inductive result (A : Type) : Type :=
| Ok (a : A)
| Panic.
Arguments Ok {A} a.
Arguments Panic {A}.

#[global] Instance result_ret : MRet result := fun A a => Ok a.
#[global] Instance result_bind : MBind result := fun A B f m =>
  match m with
  | Ok a => f a
  | Panic => Panic
  end.

(** The state of [math/rand]'s global source: the raw draws it will
    deliver, and how many have been consumed. *)
Record Rng : Type := { draws : nat -> nat; pos : nat }.

Definition advance (g : Rng) : Rng := {| draws := draws g; pos := S (pos g) |}.

(** [rand.Intn(n)]: a number in [0, n); panics when [n <= 0]. *)
Definition Intn (n : nat) (g : Rng) : result (nat * Rng) :=
  if (n =? 0)%nat then Panic
  else Ok (draws g (pos g) mod n, advance g).

(** ** The store: the globals [quote], [quotes] and the flags *)

Definition addr : Type := nat.

(** The slices allocated so far (one per [newQuotes], never written after
    their construction), the pointer [quotes] to the current one, and the
    pointer [quote] to one of its elements: a slice and an index. *)
Record Store : Type := {
  heap : list (list string);
  quotes : option addr;
  quote : option (addr * nat)
}.

(** The zero values Go gives the two pointers. *)
Definition initStore : Store := {| heap := []; quotes := None; quote := None |}.

Definition setQuote (q : option (addr * nat)) (st : Store) : Store :=
  {| heap := heap st; quotes := quotes st; quote := q |}.

(** The flags [reload], [cache] (both [time.Duration], signed 64-bit
    nanoseconds) and [verbose]. *)
Record Config : Type := { reload : Z; cache : Z; verbose : bool }.

(** [*p] for a pointer to a slice. *)
Definition derefSlice (st : Store) (p : option addr) : result (list string) :=
  match p with
  | None => Panic
  | Some a =>
      match heap st !! a with
      | Some qs => Ok qs
      | None => Panic
      end
  end.

(** [*p] for a pointer to a string. *)
Definition derefString (st : Store) (p : option (addr * nat)) : result string :=
  match p with
  | None => Panic
  | Some (a, i) =>
      qs ← derefSlice st (Some a);
      match qs !! i with
      | Some q => Ok q
      | None => Panic
      end
  end.

(** The quote set the store holds: the slice behind [quotes], if set. *)
Definition currentSet (st : Store) : option (list string) :=
  a ← quotes st; heap st !! a.

(** [nextQuoteRaw()] *)
Definition nextQuoteRaw (st : Store) (g : Rng)
  : result (option (addr * nat) * Rng) :=
  match quotes st with
  | None => Ok (None, g)
  | Some a =>
      qs ← derefSlice st (quotes st);
      if (length qs =? 0)%nat then Ok (None, g)
      else
        '(idx, g') ← Intn (length qs) g;
        if (idx <? length qs)%nat then Ok (Some (a, idx), g') else Panic
  end.

(** [selectQuote()] *)
Definition selectQuote (cfg : Config) (st : Store) (g : Rng)
  : result (option (addr * nat) * Rng) :=
  if (0 <? cache cfg)%Z then Ok (quote st, g)
  else nextQuoteRaw st g.

(** ** Loading *)

(** What the outside world answers: [os.Open] followed by reading the file,
    and [http.Get] with the status code and the body. *)
Record World : Type := {
  openFile : string -> error + string;
  httpGet : string -> error + (nat * string)
}.

(** [loadQuotesFromFile(file)] *)
Definition loadQuotesFromFile (w : World) (file : string)
  : list string * option error :=
  match openFile w file with
  | inl err => ([], Some err)
  | inr data => parseQuotes data
  end.

(** [loadQuotesFromURL(url)] *)
Definition loadQuotesFromURL (w : World) (url : string)
  : list string * option error :=
  match httpGet w url with
  | inl err => ([], Some err)
  | inr (code, body) =>
      if negb (code =? 200)%nat then ([], Some (ErrStatus code))
      else parseQuotes body
  end.

(** [fetchQuotes(source)] *)
Definition fetchQuotes (w : World) (source : string)
  : list string * option error :=
  if HasPrefix source "https://" then loadQuotesFromURL w source
  else if HasPrefix source "http://" then loadQuotesFromURL w source
  else loadQuotesFromFile w source.

(** Lines 160-163 of [reloadQuotes], the section under the write lock:
    [quotes = &newQuotes; quote = nextQuoteRaw()]. *)
Definition reloadLocked (newQuotes : list string) (st : Store) (g : Rng)
  : result (Store * Rng) :=
  let st1 := {| heap := heap st ++ [newQuotes];
                quotes := Some (length (heap st));
                quote := quote st |} in
  '(q, g') ← nextQuoteRaw st1 g;
  Ok (setQuote q st1, g').

(** [reloadQuotes(source)]: the error returned, the store and the random
    source afterwards. *)
Definition reloadQuotes (w : World) (source : string) (st : Store) (g : Rng)
  : result (option error * Store * Rng) :=
  let '(newQuotes, err) := fetchQuotes w source in
  match err with
  | Some e => Ok (Some e, st, g)
  | None =>
      '(st', g') ← reloadLocked newQuotes st g;
      Ok (None, st', g')
  end.

(** Lines 217-221, one tick of the cache rotator under the write lock:
    [quote = nextQuoteRaw()]. *)
Definition rotateCache (st : Store) (g : Rng) : result (Store * Rng) :=
  '(q, g') ← nextQuoteRaw st g;
  Ok (setQuote q st, g').

(** ** The handlers *)

(** What a handler leaves in the [http.ResponseWriter]; the status is 200
    unless [WriteHeader] was called. *)
Record Response : Type := { status : nat; body : string }.

(** [handleQuote] *)
Definition handleQuote (cfg : Config) (st : Store) (g : Rng)
  : result (Response * Rng) :=
  '(selection, g') ← selectQuote cfg st g;
  match selection with
  | None => Ok ({| status := 503; body := "" |}, g')
  | Some _ =>
      q ← derefString st selection;
      Ok ({| status := 200; body := q +:+ nl |}, g')
  end.

(** The handler of [/health], lines 179-183:
    [if quotes != nil || len( *quotes) == 0 { w.WriteHeader(503) }];
    the right operand is evaluated only when the left one is false. *)
Definition handleHealth (st : Store) : result Response :=
  if bool_decide (quotes st ≠ None) then Ok {| status := 503; body := "" |}
  else
    qs ← derefSlice st (quotes st);
    if (length qs =? 0)%nat then Ok {| status := 503; body := "" |}
    else Ok {| status := 200; body := "" |}.

(** ** The running daemon *)

(** What can happen once [main] has started its goroutines: a tick of the
    reload timer, SIGHUP, a tick of the cache timer, a request for [/] and
    a request for [/health].  A reload sees the world of its own time. *)
Inductive event : Type :=
| ReloadTick (w : World)
| Sighup (w : World)
| CacheTick
| GetQuote
| GetHealth.

(** A reload after startup: the error is logged and otherwise ignored. *)
Definition reloadLogged (w : World) (source : string) (st : Store) (g : Rng)
  : result (Store * Rng) :=
  '(_, st', g') ← reloadQuotes w source st g;
  Ok (st', g').

(** The effect of one event on the store and the random source.  The two
    timers exist only when their flag is positive. *)
Definition handle (cfg : Config) (source : string) (ev : event)
    (st : Store) (g : Rng) : result (Store * Rng) :=
  match ev with
  | ReloadTick w =>
      if (0 <? reload cfg)%Z then reloadLogged w source st g else Ok (st, g)
  | Sighup w => reloadLogged w source st g
  | CacheTick =>
      if (0 <? cache cfg)%Z then rotateCache st g else Ok (st, g)
  | GetQuote =>
      '(_, g') ← handleQuote cfg st g;
      Ok (st, g')
  | GetHealth =>
      _ ← handleHealth st;
      Ok (st, g)
  end.

(** The stores the daemon can be in: [main] first reloads, and exits if
    that fails; then events arrive. *)
Inductive Reachable (cfg : Config) (source : string) : Store -> Prop :=
| Reachable_start w g st g' :
    reloadQuotes w source initStore g = Ok (None, st, g') ->
    Reachable cfg source st
| Reachable_step ev st g st' g' :
    Reachable cfg source st ->
    handle cfg source ev st g = Ok (st', g') ->
    Reachable cfg source st'.

(** The store is well formed: [quotes] points to an allocated, non-empty
    slice and [quote] to one of its elements. *)
Definition wf (st : Store) : Prop :=
  ∃ a qs i, quotes st = Some a ∧ heap st !! a = Some qs ∧
            quote st = Some (a, i) ∧ i < length qs.

(** ** The round trip of the parser *)

(** Joining quotes with blank lines. *)
Definition serialize (qs : list string) : string := Join qs (nl +:+ nl).

(** The quotes the round-trip property of the specification speaks of:
    one line each, not starting with [#]. *)
Definition plain (q : string) : bool :=
  negb (contains LF q) && negb (HasPrefix q "#").

(** The quotes that do survive the round trip: moreover not empty, not
    starting with an escaped [#], not the lone backslash, not ending in a
    carriage return, and short enough for the scanner. *)
Definition faithful (q : string) : bool :=
  plain q && (0 <? len q)%nat && negb (HasPrefix q "\#") &&
  negb (String.eqb q "\") && negb (bool_decide (lastByte q = Some CR)) &&
  fits q.

(** A comment line: its first byte is [#]. *)
Definition isComment (line : string) : bool := HasPrefix line "#".

(** The text of [n] empty lines. *)
Fixpoint blank (n : nat) : string :=
  match n with
  | 0 => ""
  | S n' => String LF (blank n')
  end.

(** ** Texts as lines, and runs of the daemon *)

(** The text of the lines [ls], each followed by the terminator [term]
    (a line feed, or a carriage return and a line feed). *)
Fixpoint unlines (term : string) (ls : list string) : string :=
  match ls with
  | [] => ""
  | l :: ls' => l +:+ term +:+ unlines term ls'
  end.

(** Go's ["\r\n"]. *)
Definition crlf : string := String CR nl.

(** What the scanner makes of the terminated lines [ls] when the text
    behind them gives the tokens [k]: each line without its carriage
    return, up to the first line that does not fit. *)
Fixpoint deliver (ls : list string) (k : list string) : list string :=
  match ls with
  | [] => k
  | l :: ls' => if fits l then dropCR l :: deliver ls' k else []
  end.

(** The lines of a quote file that holds the paragraphs [paras], an empty
    line between two of them. *)
Fixpoint document (paras : list (list string)) : list string :=
  match paras with
  | [] => []
  | [p] => p
  | p :: ps => p ++ "" :: document ps
  end.

(** The events that are requests. *)
Definition isRequest (ev : event) : bool :=
  match ev with
  | GetQuote | GetHealth => true
  | _ => false
  end.

(** The daemon handling a sequence of events, one after the other. *)
Fixpoint runEvents (cfg : Config) (source : string) (evs : list event)
    (st : Store) (g : Rng) : result (Store * Rng) :=
  match evs with
  | [] => Ok (st, g)
  | ev :: evs' =>
      '(st', g') ← handle cfg source ev st g;
      runEvents cfg source evs' st' g'
  end.

(** A world in which every URL answers with the status [code] and the body
    [data]. *)
Definition httpWorld (code : nat) (data : string) : World :=
  {| openFile := λ f, inl (ErrOpen f); httpGet := λ _, inr (code, data) |}.

(** ** Sample worlds, random sources and stores *)

(** A world in which nothing can be opened or fetched. *)
Definition deadWorld : World :=
  {| openFile := λ f, inl (ErrOpen f); httpGet := λ u, inl (ErrGet u) |}.

(** A world in which every file holds [data]. *)
Definition fileWorld (data : string) : World :=
  {| openFile := λ _, inr data; httpGet := λ u, inl (ErrGet u) |}.

(** The random source whose every draw is [k]. *)
Definition constRng (k : nat) : Rng := {| draws := λ _, k; pos := 0 |}.

(** The store after a start on a file with the two quotes
    [first] and [second], when the first draw is 1. *)
Definition twoQuotes : Store :=
  {| heap := [["first"; "second"]]; quotes := Some 0; quote := Some (0, 1) |}.

(** A store whose current set is empty. *)
Definition emptySet : Store :=
  {| heap := [[]]; quotes := Some 0; quote := None |}.

Definition noCache : Config := {| reload := 0; cache := 0; verbose := false |}.

(** [-cache 1h], in nanoseconds. *)
Definition hourCache : Config :=
  {| reload := 0; cache := 3600000000000; verbose := false |}.

(** A line of 65536 bytes, one more than the scanner delivers. *)
Definition longLine : string := Nat.iter 16 (λ s, s +:+ s) "x".

(** ** Examples *)

Example parse_readme :
  parseQuotes ("first string" +:+ nl +:+ nl +:+ "# comment" +:+ nl +:+
               "second one is" +:+ nl +:+ "a multiline string" +:+ nl +:+ nl +:+
               "third one has" +:+ nl +:+ "\" +:+ nl +:+ "a blank line" +:+ nl +:+ nl +:+
               "# also a comment" +:+ nl +:+ nl +:+ "\#fourthstring" +:+ nl)
  = (["first string"; "second one is" +:+ nl +:+ "a multiline string";
      "third one has" +:+ nl +:+ nl +:+ "a blank line"; "#fourthstring"], None).
Proof. reflexivity. Qed.

Example parse_spec_example :
  parseQuotes ("first" +:+ nl +:+ nl +:+ "# a comment" +:+ nl +:+
               "second" +:+ nl +:+ "line")
  = (["first"; "second" +:+ nl +:+ "line"], None).
Proof. reflexivity. Qed.

(** ** The scanner *)

Section ScannerFacts.

Lemma append_cons (c : ascii) (s t : string) :
  String c s +:+ t = String c (s +:+ t).
Proof. reflexivity. Qed.

(** A line without a line feed is cut whole. *)
Lemma cutLine_whole (l : string) :
  contains LF l = false -> cutLine l = (l, None).
Proof.
  induction l as [|c l IH]; simpl; [done |].
  destruct (Ascii.eqb c LF); [done |].
  intros H. by rewrite (IH H).
Qed.

(** A line is cut at its line feed. *)
Lemma cutLine_line (l rest : string) :
  contains LF l = false ->
  cutLine (l +:+ String LF rest) = (l, Some rest).
Proof.
  induction l as [|c l IH].
  - intros _. reflexivity.
  - rewrite append_cons. simpl.
    destruct (Ascii.eqb c LF); [done |].
    intros H. by rewrite (IH H).
Qed.

(** What is left after the cut is shorter than the data. *)
Lemma cutLine_rest (data l rest : string) :
  cutLine data = (l, Some rest) -> len rest < len data.
Proof.
  revert l. induction data as [|c data IH]; simpl; intros l; [done |].
  destruct (Ascii.eqb c LF).
  - intros [= _ <-]. lia.
  - destruct (cutLine data) as [l' r'] eqn:E.
    intros [= _ ->]. specialize (IH l' eq_refl). lia.
Qed.

Lemma cutLine_end (data l : string) :
  cutLine data = (l, None) -> l = data.
Proof.
  revert l. induction data as [|c data IH]; simpl; intros l.
  - by intros [= <-].
  - destruct (Ascii.eqb c LF); [done |].
    destruct (cutLine data) as [l' r'] eqn:E.
    intros [= <- ->]. by rewrite (IH l' eq_refl).
Qed.

(** Every delivered token consumes at least one byte. *)
Lemma Scan_consumes (data tok rest : string) :
  Scan data = Some (tok, rest) -> len rest < len data.
Proof.
  unfold Scan. destruct (cutLine data) as [l [r|]] eqn:E.
  - destruct (fits l); [|done]. intros [= _ <-]. by eapply cutLine_rest.
  - apply cutLine_end in E as ->.
    destruct (len data =? 0)%nat eqn:E0; [done |].
    destruct (fits data); [|done]. intros [= _ <-].
    apply Nat.eqb_neq in E0. simpl. lia.
Qed.

(** With enough fuel [scanAll] is a run of the scanner to its end. *)
Lemma scanAll_run (fuel : nat) (data : string) :
  len data < fuel -> ScanRun data (scanAll fuel data).
Proof.
  revert data. induction fuel as [|fuel IH]; intros data Hlt; [lia |].
  simpl. destruct (Scan data) as [[tok rest]|] eqn:E.
  - eapply ScanRun_token; [done |].
    apply IH. apply Scan_consumes in E. lia.
  - by apply ScanRun_stop.
Qed.

Lemma tokens_run (data : string) : ScanRun data (tokens data).
Proof. apply scanAll_run. lia. Qed.

(** The run is determined by the data. *)
Lemma ScanRun_det (data : string) (t1 t2 : list string) :
  ScanRun data t1 -> ScanRun data t2 -> t1 = t2.
Proof.
  intros H1. revert t2.
  induction H1 as [data E|data tok rest toks E _ IH]; intros t2 H2.
  - inversion H2; [done | congruence].
  - inversion H2 as [? E2|? tok2 rest2 toks2 E2 H2']; subst; [congruence |].
    rewrite E in E2. injection E2 as <- <-. f_equal. by apply IH.
Qed.

(** More fuel changes nothing. *)
Lemma scanAll_fuel (fuel : nat) (data : string) :
  len data < fuel -> scanAll fuel data = tokens data.
Proof.
  intros H. eapply ScanRun_det; [by apply scanAll_run | apply tokens_run].
Qed.

Lemma tokens_stop (data : string) : Scan data = None -> tokens data = [].
Proof. unfold tokens. simpl. by intros ->. Qed.

Lemma tokens_token (data tok rest : string) :
  Scan data = Some (tok, rest) -> tokens data = tok :: tokens rest.
Proof.
  intros E. unfold tokens at 1. simpl. rewrite E. f_equal.
  apply scanAll_fuel. by eapply Scan_consumes.
Qed.

Lemma dropCR_id (l : string) : lastByte l ≠ Some CR -> dropCR l = l.
Proof.
  induction l as [|c l IH]; [done |].
  destruct l as [|d l].
  - simpl. destruct (Ascii.eqb c CR) eqn:E; [|done].
    apply Ascii.eqb_eq in E as ->. done.
  - intros H. change (String c (dropCR (String d l)) = String c (String d l)).
    f_equal. by apply IH.
Qed.

End ScannerFacts.

(** ** The parser *)

Section ParserFacts.

Implicit Types (qs acc lines : list string) (line data : string).

Lemma parseQuotes_eq data :
  parseQuotes data =
    ((parseLoop (tokens data)).1 ++ [Join (parseLoop (tokens data)).2 nl], None).
Proof. unfold parseQuotes. by destruct (parseLoop (tokens data)). Qed.

(** A comment line changes neither variable of the loop. *)
Lemma parseLine_comment qs acc line :
  isComment line = true -> parseLine (qs, acc) line = (qs, acc).
Proof. unfold isComment, parseLine. by intros ->. Qed.

Lemma fold_parseLine_comments lines (st : list string * list string) :
  fold_left parseLine lines st =
  fold_left parseLine (filter (λ l, isComment l = false) lines) st.
Proof.
  revert st. induction lines as [|l lines IH]; intros [qs acc]; [done |].
  destruct (isComment l) eqn:E.
  - rewrite filter_cons_False by (rewrite E; done).
    cbn [fold_left]. rewrite parseLine_comment by done. apply IH.
  - rewrite filter_cons_True by done. cbn [fold_left]. apply IH.
Qed.

(** An escaped [#] is kept, without its backslash. *)
Lemma parseLine_escaped_hash qs acc (s : string) :
  parseLine (qs, acc) ("\#" +:+ s) = (qs, acc ++ ["#" +:+ s]).
Proof. by destruct s. Qed.

(** A lone backslash adds an empty line to the paragraph. *)
Lemma parseLine_backslash qs acc :
  parseLine (qs, acc) "\" = (qs, acc ++ [""]).
Proof. reflexivity. Qed.

(** An empty line ends a paragraph that has lines, and is skipped
    otherwise. *)
Lemma parseLine_empty qs acc :
  parseLine (qs, acc) "" =
    if (0 <? length acc)%nat then (qs ++ [Join acc nl], []) else (qs, acc).
Proof. reflexivity. Qed.

Lemma Scan_empty_line data : Scan (String LF data) = Some ("", data).
Proof. reflexivity. Qed.

Lemma tokens_blank (n : nat) : tokens (blank n) = replicate n "".
Proof.
  induction n as [|n IH]; [done |].
  simpl blank. rewrite (tokens_token _ _ _ (Scan_empty_line _)), IH. done.
Qed.

Lemma fold_parseLine_blank (n : nat) qs :
  fold_left parseLine (replicate n "") (qs, []) = (qs, []).
Proof. induction n as [|n IH]; [done |]. simpl. apply IH. Qed.

Lemma parseLine_empty_acc (st : list string * list string) :
  (parseLine st "").2 = [].
Proof.
  destruct st as [qs acc]. rewrite parseLine_empty.
  by destruct acc.
Qed.

(** *** Lines of the text and tokens *)

(** A line that fits is delivered without its carriage return, and the
    scan goes on behind its line feed. *)
Lemma Scan_text_line (l rest : string) :
  contains LF l = false -> fits l = true ->
  Scan (l +:+ String LF rest) = Some (dropCR l, rest).
Proof.
  intros H0 Hfit. unfold Scan. by rewrite (cutLine_line _ _ H0), Hfit.
Qed.

Lemma tokens_text_line (l rest : string) :
  contains LF l = false -> fits l = true ->
  tokens (l +:+ String LF rest) = dropCR l :: tokens rest.
Proof. intros H0 Hfit. by apply tokens_token, Scan_text_line. Qed.

(** A line that does not fit ends the scan: nothing behind it is read. *)
Lemma tokens_long_line (l rest : string) :
  contains LF l = false -> fits l = false ->
  tokens (l +:+ String LF rest) = [].
Proof.
  intros H0 Hfit. apply tokens_stop.
  unfold Scan. by rewrite (cutLine_line _ _ H0), Hfit.
Qed.

Lemma Scan_backslash_line (rest : string) :
  Scan ("\" +:+ String LF rest) = Some ("\"%string, rest).
Proof. reflexivity. Qed.

Lemma parseLine_comment_line (qs acc : list string) (s : string) :
  parseLine (qs, acc) ("#" +:+ s) = (qs, acc).
Proof. apply parseLine_comment. by destruct s. Qed.

Lemma dropCR_hash (s : string) : dropCR ("#" +:+ s) = "#" +:+ dropCR s.
Proof. by destruct s. Qed.

Lemma dropCR_escaped_hash (s : string) :
  dropCR ("\#" +:+ s) = "\#" +:+ dropCR s.
Proof. by destruct s. Qed.

(** *** Quotes that survive the round trip *)

Lemma faithful_spec (q : string) :
  faithful q = true ->
  contains LF q = false ∧ HasPrefix q "#" = false ∧ (0 <? len q)%nat = true ∧
  HasPrefix q "\#" = false ∧ String.eqb q "\" = false ∧
  lastByte q ≠ Some CR ∧ fits q = true.
Proof.
  unfold faithful, plain. rewrite !andb_true_iff, !negb_true_iff.
  intros [[[[[[? ?] ?] ?] ?] Hcr] ?]. repeat split; try done.
  by apply bool_decide_eq_false in Hcr.
Qed.

Lemma parseLine_content qs acc (q : string) :
  faithful q = true -> parseLine (qs, acc) q = (qs, acc ++ [q]).
Proof.
  intros (_ & H1 & H2 & H3 & H4 & _)%faithful_spec.
  unfold parseLine. by rewrite H1, H3, H2, H4.
Qed.

Lemma Scan_last_line (q : string) :
  faithful q = true -> Scan q = Some (q, "").
Proof.
  intros (H0 & _ & H2 & _ & _ & H5 & H6)%faithful_spec.
  unfold Scan. rewrite (cutLine_whole _ H0), H6.
  apply Nat.ltb_lt in H2.
  destruct (Nat.eqb_spec (len q) 0) as [E|_]; [lia |].
  by rewrite (dropCR_id _ H5).
Qed.

Lemma Scan_line (q rest : string) :
  faithful q = true -> Scan (q +:+ String LF rest) = Some (q, rest).
Proof.
  intros (H0 & _ & _ & _ & _ & H5 & H6)%faithful_spec.
  by rewrite Scan_text_line, (dropCR_id _ H5).
Qed.

Lemma serialize_cons (q q' : string) (l : list string) :
  serialize (q :: q' :: l) =
  q +:+ String LF (String LF (serialize (q' :: l))).
Proof. reflexivity. Qed.

(** The loop on the serialized quotes, from any [qs] and an empty
    accumulator: all the quotes are there once the accumulator is joined. *)
Lemma parseLoop_serialize (l : list string) :
  l ≠ [] -> Forall (λ q, faithful q = true) l ->
  ∀ qs0, ∃ qs acc,
    fold_left parseLine (tokens (serialize l)) (qs0, []) = (qs, acc) ∧
    qs ++ [Join acc nl] = qs0 ++ l.
Proof.
  induction l as [|q l IH]; [done |]. intros _ Hall qs0.
  apply Forall_cons in Hall as [Hq Hall].
  destruct l as [|q' l].
  - exists qs0, [q]. split; [|done].
    change (serialize [q]) with q.
    rewrite (tokens_token _ _ _ (Scan_last_line _ Hq)).
    rewrite (tokens_stop "") by done.
    cbn [fold_left]. by rewrite parseLine_content.
  - destruct (IH ltac:(done) Hall (qs0 ++ [q])) as (qs & acc & Hfold & Hjoin).
    exists qs, acc. split.
    + rewrite serialize_cons.
      rewrite (tokens_token _ _ _ (Scan_line _ _ Hq)).
      rewrite (tokens_token _ _ _ (Scan_empty_line _)).
      cbn [fold_left]. rewrite parseLine_content by done.
      rewrite parseLine_empty. exact Hfold.
    + by rewrite Hjoin, <- app_assoc.
Qed.

End ParserFacts.

(** ** The store *)

Section StoreFacts.

Implicit Types (st : Store) (g : Rng) (cfg : Config) (qs : list string).

Lemma nextQuoteRaw_nil st g :
  quotes st = None -> nextQuoteRaw st g = Ok (None, g).
Proof. unfold nextQuoteRaw. by intros ->. Qed.

Lemma nextQuoteRaw_empty st g (a : addr) :
  quotes st = Some a -> heap st !! a = Some [] ->
  nextQuoteRaw st g = Ok (None, g).
Proof.
  intros Hq Hh. unfold nextQuoteRaw, derefSlice. rewrite Hq, Hh. done.
Qed.

(** On a non-empty set the draw, reduced modulo the length, is the index
    taken; one draw is consumed. *)
Lemma nextQuoteRaw_pick st g (a : addr) qs :
  quotes st = Some a -> heap st !! a = Some qs -> qs ≠ [] ->
  nextQuoteRaw st g =
    Ok (Some (a, draws g (pos g) mod length qs), advance g).
Proof.
  intros Hq Hh Hne. unfold nextQuoteRaw, derefSlice, Intn.
  rewrite Hq, Hh. cbn -[Nat.ltb Nat.eqb Nat.modulo].
  assert (length qs ≠ 0) as Hlen by (destruct qs; [done | simpl; lia]).
  destruct (Nat.eqb_spec (length qs) 0) as [|_]; [done |].
  cbn -[Nat.ltb Nat.eqb Nat.modulo].
  pose proof (Nat.mod_upper_bound (draws g (pos g)) (length qs) Hlen) as Hlt.
  apply Nat.ltb_lt in Hlt. by rewrite Hlt.
Qed.

(** The new slice is allocated behind everything that was there. *)
Lemma reloadLocked_empty st g :
  reloadLocked [] st g =
    Ok ({| heap := heap st ++ [[]]; quotes := Some (length (heap st));
           quote := None |}, g).
Proof.
  unfold reloadLocked.
  rewrite (nextQuoteRaw_empty _ _ (length (heap st))); [done | done |].
  cbn. by rewrite lookup_app_r, Nat.sub_diag.
Qed.

Lemma reloadLocked_pick qs st g :
  qs ≠ [] ->
  reloadLocked qs st g =
    Ok ({| heap := heap st ++ [qs]; quotes := Some (length (heap st));
           quote := Some (length (heap st), draws g (pos g) mod length qs) |},
        advance g).
Proof.
  intros Hne. unfold reloadLocked.
  rewrite (nextQuoteRaw_pick _ _ (length (heap st)) qs); [done | done | | done].
  cbn. by rewrite lookup_app_r, Nat.sub_diag.
Qed.

(** Well-formed stores stay well formed, and nothing panics on them. *)
Lemma wf_reloadLocked qs st g :
  qs ≠ [] -> ∃ st' g', reloadLocked qs st g = Ok (st', g') ∧ wf st'.
Proof.
  intros Hne. rewrite reloadLocked_pick by done.
  eexists _, _. split; [done |].
  exists (length (heap st)), qs, (draws g (pos g) mod length qs). cbn.
  split_and!; try done.
  - by rewrite lookup_app_r, Nat.sub_diag.
  - apply Nat.mod_upper_bound. destruct qs; [done | simpl; lia].
Qed.

Lemma wf_rotateCache st g :
  wf st -> ∃ st' g', rotateCache st g = Ok (st', g') ∧ wf st'.
Proof.
  intros (a & qs & i & Hq & Hh & _ & Hi).
  assert (qs ≠ []) as Hne by (destruct qs; [simpl in Hi; lia | done]).
  unfold rotateCache. rewrite (nextQuoteRaw_pick _ _ a qs) by done.
  eexists _, _. split; [done |].
  exists a, qs, (draws g (pos g) mod length qs). cbn.
  split_and!; try done.
  apply Nat.mod_upper_bound. lia.
Qed.

(** A load that succeeds went through the parser. *)
Lemma fetchQuotes_parsed (w : World) (source : string) qs :
  fetchQuotes w source = (qs, None) ->
  ∃ data, parseQuotes data = (qs, None).
Proof.
  unfold fetchQuotes, loadQuotesFromURL, loadQuotesFromFile.
  destruct (HasPrefix source "https://"), (HasPrefix source "http://");
    repeat match goal with
    | |- context [match ?x with _ => _ end] => destruct x
    end; try done; eauto.
Qed.

Lemma parseQuotes_nonempty (data : string) qs (e : option error) :
  parseQuotes data = (qs, e) -> qs ≠ [] ∧ e = None.
Proof.
  rewrite parseQuotes_eq. intros [= <- <-]. split; [|done].
  by destruct (parseLoop (tokens data)).1.
Qed.

Lemma fetchQuotes_nonempty (w : World) (source : string) qs :
  fetchQuotes w source = (qs, None) -> qs ≠ [].
Proof.
  intros [data H]%fetchQuotes_parsed.
  by apply parseQuotes_nonempty in H as [? _].
Qed.

Lemma wf_reloadQuotes (w : World) (source : string) st g :
  (st = initStore ∨ wf st) ->
  ∃ e st' g', reloadQuotes w source st g = Ok (e, st', g') ∧
    (e = None -> wf st') ∧ (e ≠ None -> st' = st ∧ g' = g).
Proof.
  intros Hst. unfold reloadQuotes.
  destruct (fetchQuotes w source) as [qs [e|]] eqn:E.
  - eexists _, _, _. split; [done |]. split; [done | done].
  - apply fetchQuotes_nonempty in E.
    destruct (wf_reloadLocked qs st g E) as (st' & g' & -> & Hwf).
    eexists _, _, _. split; [done |]. split; [done | done].
Qed.

Lemma wf_handle cfg (source : string) (ev : event) st g :
  wf st -> ∃ st' g', handle cfg source ev st g = Ok (st', g') ∧ wf st'.
Proof.
  intros Hwf.
  assert (∀ w, ∃ st' g', reloadLogged w source st g = Ok (st', g') ∧ wf st')
    as Hreload.
  { intros w. unfold reloadLogged.
    destruct (wf_reloadQuotes w source st g (or_intror Hwf))
      as (e & st' & g' & -> & Hok & Herr).
    exists st', g'. split; [done |].
    destruct e as [e|]; [|by apply Hok].
    destruct Herr as [-> _]; done. }
  destruct ev as [w|w| | |]; cbn [handle].
  - destruct (0 <? reload cfg)%Z; [apply Hreload | by eexists _, _].
  - apply Hreload.
  - destruct (0 <? cache cfg)%Z; [by apply wf_rotateCache | by eexists _, _].
  - destruct Hwf as (a & qs & i & Hq & Hh & Hsel & Hi).
    assert (qs ≠ []) as Hne by (destruct qs; [simpl in Hi; lia | done]).
    assert (∃ q, qs !! i = Some q) as [q Hlook] by by apply lookup_lt_is_Some_2.
    unfold handleQuote, selectQuote.
    destruct (0 <? cache cfg)%Z.
    + cbn. rewrite Hsel. cbn. rewrite Hh. cbn. rewrite Hlook.
      eexists _, _. split; [done |]. by exists a, qs, i.
    + rewrite (nextQuoteRaw_pick _ _ a qs) by done. cbn. rewrite Hh. cbn.
      assert (∃ q', qs !! (draws g (pos g) mod length qs) = Some q')
        as [q' ->].
      { apply lookup_lt_is_Some_2, Nat.mod_upper_bound. lia. }
      eexists _, _. split; [done |]. by exists a, qs, i.
  - destruct Hwf as (a & qs & i & Hq & Hh & Hsel & Hi).
    unfold handleHealth. rewrite Hq. cbn.
    eexists _, _. split; [done |]. by exists a, qs, i.
Qed.

(** The invariant of the running daemon. *)
Lemma Reachable_wf cfg (source : string) st :
  Reachable cfg source st -> wf st.
Proof.
  induction 1 as [w g st g' Hstart|ev st g st' g' _ IH Hstep].
  - destruct (wf_reloadQuotes w source initStore g (or_introl eq_refl))
      as (e & st1 & g1 & Heq & Hok & _).
    rewrite Heq in Hstart. injection Hstart as He <- <-. by apply Hok.
  - destruct (wf_handle cfg source ev st g IH) as (st1 & g1 & Heq & Hwf).
    rewrite Heq in Hstep. by injection Hstep as <- <-.
Qed.

End StoreFacts.

(** ** The properties of the specification *)

(** The daemon can start, and then holds what the file held. *)
Example start_twoQuotes :
  reloadQuotes (fileWorld ("first" +:+ nl +:+ nl +:+ "second")) "quotes.txt"
    initStore (constRng 1) = Ok (None, twoQuotes, advance (constRng 1)).
Proof. reflexivity. Qed.

Example twoQuotes_reachable (cfg : Config) :
  Reachable cfg "quotes.txt" twoQuotes.
Proof. eapply Reachable_start, start_twoQuotes. Qed.

(** Whenever [quotes] is set, [/health] answers 503, whatever the set
    holds. *)
Lemma handleHealth_set (st : Store) :
  quotes st ≠ None -> handleHealth st = Ok {| status := 503; body := "" |}.
Proof. intros H. unfold handleHealth. by rewrite bool_decide_eq_true_2. Qed.

(** So it never answers 200 in the running daemon. *)
Lemma handleHealth_running (cfg : Config) (source : string) (st : Store) :
  Reachable cfg source st ->
  handleHealth st = Ok {| status := 503; body := "" |}.
Proof.
  intros (a & ? & ? & Hq & _)%Reachable_wf.
  apply handleHealth_set. by rewrite Hq.
Qed.

(** Before the first reload, with [quotes] still nil, it dereferences
    nil. *)
Example handleHealth_nil : handleHealth initStore = Panic.
Proof. reflexivity. Qed.

(** C1 (the code departs from it).  [/health] must answer 200 when the
    store holds at least one quote.  On the store reached by starting on a
    file with two quotes, which holds both of them, the handler answers
    503. *)
Theorem health_holding_quotes_503 :
  Reachable noCache "quotes.txt" twoQuotes ∧
  currentSet twoQuotes = Some ["first"; "second"] ∧
  handleHealth twoQuotes = Ok {| status := 503; body := "" |}.
Proof. split; [apply twoQuotes_reachable | done]. Qed.

(** C2 as stated fails: the quote that is a lone backslash is one line, has
    no blank line and does not begin with [#], but comes back as the empty
    quote. *)
Lemma roundtrip_backslash_lost :
  Forall (λ q, plain q = true) ["\"] ∧
  parseQuotes (serialize ["\"]) = ([""], None) ∧
  parseQuotes (serialize ["\"]) ≠ (["\"], None).
Proof. split; [by repeat constructor | done]. Qed.

(** The other ways in which a list of plain quotes is not reproduced: the
    empty list, an empty quote that is not the last one, an escaped [#],
    and a trailing carriage return. *)
Example roundtrip_nil_lost : parseQuotes (serialize []) = ([""], None).
Proof. reflexivity. Qed.

Example roundtrip_empty_quote_lost :
  plain "" = true ∧ parseQuotes (serialize [""; "a"]) = (["a"], None).
Proof. done. Qed.

Example roundtrip_escape_lost :
  plain "\#a" = true ∧ parseQuotes (serialize ["\#a"]) = (["#a"], None).
Proof. done. Qed.

Example roundtrip_cr_lost :
  plain ("a" +:+ String CR "") = true ∧
  parseQuotes (serialize ["a" +:+ String CR ""]) = (["a"], None).
Proof. done. Qed.

(** A quote of 64 KiB is not delivered by the scanner at all; one byte
    less and it is. *)
Example roundtrip_long_lost :
  plain longLine = true ∧ N.of_nat (len longLine) = MaxScanTokenSize ∧
  parseQuotes (serialize [longLine]) = ([""], None) ∧
  faithful (from1 longLine) = true.
Proof. vm_compute. repeat split. Qed.


(** Joining faithful quotes with blank lines and parsing gives them back. *)
Lemma parseQuotes_serialize (l : list string) :
  l ≠ [] -> Forall (λ q, faithful q = true) l ->
  parseQuotes (serialize l) = (l, None).
Proof.
  intros Hne Hall.
  destruct (parseLoop_serialize l Hne Hall []) as (qs & acc & Hfold & Hjoin).
  unfold parseQuotes, parseLoop. by rewrite Hfold, Hjoin.
Qed.

(** C2 (amended).  Serializing a non-empty list of quotes by joining them
    with blank lines and parsing the result reproduces the list, when
    every quote is a single non-empty line that begins neither with [#]
    nor with an escaped [#], is not the lone backslash, does not end in a
    carriage return and is shorter than the scanner's 64 KiB. *)
Theorem roundtrip_faithful (l : list string) :
  l ≠ [] -> Forall (λ q, faithful q = true) l ->
  parseQuotes (serialize l) = (l, None).
Proof. apply parseQuotes_serialize. Qed.

Lemma roundtrip_faithful_witness :
  parseQuotes (serialize ["first"; "second"]) = (["first"; "second"], None).
Proof.
  apply (roundtrip_faithful ["first"; "second"]); [done |].
  repeat constructor.
Defined.

(** C3.  A reload that installs the set [S2] leaves [quotes] on [S2] and
    [quote] on an element of [S2], or nil when [S2] is empty; with caching
    enabled that is what [selectQuote] then returns, whatever the random
    source; and the pointer is into the new slice, never into the slice
    that was current before, which is left as it was. *)
Theorem reload_selects_from_new_set (S2 : list string) (st : Store) (g : Rng) :
  ∃ st' g',
    reloadLocked S2 st g = Ok (st', g') ∧
    (∀ w source, fetchQuotes w source = (S2, None) ->
       reloadQuotes w source st g = Ok (None, st', g')) ∧
    currentSet st' = Some S2 ∧
    (S2 = [] -> quote st' = None) ∧
    (S2 ≠ [] -> ∃ i q, quote st' = Some (length (heap st), i) ∧
                        S2 !! i = Some q ∧
                        derefString st' (quote st') = Ok q) ∧
    (∀ cfg g2, (0 < cache cfg)%Z ->
       selectQuote cfg st' g2 = Ok (quote st', g2)) ∧
    (∀ a1 S1, quotes st = Some a1 -> heap st !! a1 = Some S1 ->
       heap st' !! a1 = Some S1 ∧ quotes st' ≠ Some a1 ∧
       ∀ i, quote st' ≠ Some (a1, i)).
Proof.
  assert (∀ l : list (list string), (l ++ [S2]) !! length l = Some S2) as Hnew.
  { intros l. by rewrite lookup_app_r, Nat.sub_diag. }
  assert (∀ cfg (st' : Store) g2, (0 < cache cfg)%Z ->
            selectQuote cfg st' g2 = Ok (quote st', g2)) as Hsel.
  { intros cfg st' g2 Hc. unfold selectQuote.
    apply Z.ltb_lt in Hc. by rewrite Hc. }
  assert (∀ a1 S1, heap st !! a1 = Some S1 ->
            (heap st ++ [S2]) !! a1 = Some S1 ∧ a1 ≠ length (heap st)) as Hold.
  { intros a1 S1 H1. pose proof (lookup_lt_Some _ _ _ H1).
    split; [by apply lookup_app_l_Some | lia]. }
  destruct (decide (S2 = [])) as [->|Hne].
  - eexists _, _. split; [apply reloadLocked_empty |].
    split; [|split; [|split; [|split; [|split]]]]; cbn.
    + intros w source Hf. unfold reloadQuotes.
      by rewrite Hf, reloadLocked_empty.
    + apply Hnew.
    + done.
    + done.
    + intros cfg g2. apply Hsel.
    + intros a1 S1 _ H1. destruct (Hold a1 S1 H1) as [? ?].
      split_and!; [done | congruence | done].
  - assert (draws g (pos g) mod length S2 < length S2) as Hlt.
    { apply Nat.mod_upper_bound. destruct S2; [done | simpl; lia]. }
    destruct (lookup_lt_is_Some_2 _ _ Hlt) as [q Hq].
    eexists _, _. split; [by apply reloadLocked_pick |].
    split; [|split; [|split; [|split; [|split]]]]; cbn -[Nat.modulo].
    + intros w source Hf. unfold reloadQuotes.
      by rewrite Hf, reloadLocked_pick.
    + apply Hnew.
    + done.
    + intros _. eexists _, q. split_and!; [done | done |].
      by rewrite Hnew; cbn -[Nat.modulo]; rewrite Hq.
    + intros cfg g2. apply Hsel.
    + intros a1 S1 _ H1. destruct (Hold a1 S1 H1) as [? ?].
      split_and!; [done | congruence | congruence].
Qed.

(** C4.  When the loader fails, [reloadQuotes] returns its error and the
    store (and the random source) are what they were; so are they after
    the timer's or the signal's reload, which only logs the error. *)
Theorem reload_error_keeps_store
    (cfg : Config) (w : World) (source : string) (qs : list string) (e : error)
    (st : Store) (g : Rng) :
  fetchQuotes w source = (qs, Some e) ->
  reloadQuotes w source st g = Ok (Some e, st, g) ∧
  handle cfg source (ReloadTick w) st g = Ok (st, g) ∧
  handle cfg source (Sighup w) st g = Ok (st, g).
Proof.
  intros Hf.
  assert (reloadQuotes w source st g = Ok (Some e, st, g)) as Hr.
  { unfold reloadQuotes. by rewrite Hf. }
  split_and!; [done | |]; cbn [handle]; unfold reloadLogged; rewrite ?Hr.
  - by destruct (0 <? reload cfg)%Z.
  - done.
Qed.

Lemma reload_error_keeps_store_witness :
  reloadQuotes deadWorld "quotes.txt" twoQuotes (constRng 0)
    = Ok (Some (ErrOpen "quotes.txt"), twoQuotes, constRng 0) ∧
  handle hourCache "quotes.txt" (ReloadTick deadWorld) twoQuotes (constRng 0)
    = Ok (twoQuotes, constRng 0) ∧
  handle hourCache "quotes.txt" (Sighup deadWorld) twoQuotes (constRng 0)
    = Ok (twoQuotes, constRng 0).
Proof.
  apply (reload_error_keeps_store hourCache deadWorld "quotes.txt" []).
  reflexivity.
Defined.

(** C5.  With caching disabled, on a store whose [quotes] pointer is nil or
    live: [selectQuote] returns, and what it returns points to a member of
    the current set; it returns nil exactly when the set is unset or
    empty; and every element of the set is returned for some draw. *)
Theorem select_uncached (cfg : Config) (st : Store) :
  (cache cfg ≤ 0)%Z ->
  (∀ a, quotes st = Some a -> is_Some (heap st !! a)) ->
  (∀ g, ∃ r g',
     selectQuote cfg st g = Ok (r, g') ∧
     (∀ p, r = Some p ->
        ∃ S q, currentSet st = Some S ∧ derefString st r = Ok q ∧ q ∈ S) ∧
     (r = None ↔ quotes st = None ∨ currentSet st = Some [])) ∧
  (∀ S i q, currentSet st = Some S -> S !! i = Some q ->
     ∃ g a g', selectQuote cfg st g = Ok (Some (a, i), g') ∧
               derefString st (Some (a, i)) = Ok q).
Proof.
  intros Hc Hlive.
  assert (∀ g, selectQuote cfg st g = nextQuoteRaw st g) as Hsel.
  { intros g. unfold selectQuote.
    destruct (Z.ltb_spec 0 (cache cfg)); [lia | done]. }
  destruct (quotes st) as [a|] eqn:Hq.
  - destruct (Hlive a eq_refl) as [S HS].
    assert (currentSet st = Some S) as Hcur.
    { unfold currentSet. rewrite Hq. done. }
    split.
    + intros g. rewrite Hsel.
      destruct (decide (S = [])) as [->|Hne].
      * rewrite (nextQuoteRaw_empty _ _ a) by done.
        eexists _, _. split; [done |]. split; [done |]. by split; [right |].
      * rewrite (nextQuoteRaw_pick _ _ a S) by done.
        assert (draws g (pos g) mod length S < length S) as Hlt.
        { apply Nat.mod_upper_bound. destruct S; [done | simpl; lia]. }
        destruct (lookup_lt_is_Some_2 _ _ Hlt) as [q Hlook].
        eexists _, _. split; [done |]. split.
        -- intros p _. exists S, q. split; [done |]. split.
           ++ cbn -[Nat.modulo]. rewrite HS. cbn -[Nat.modulo].
              by rewrite Hlook.
           ++ by eapply list_elem_of_lookup_2.
        -- split; [done |]. intros [?|?]; [done | congruence].
    + intros S' i q HS' Hlook. rewrite Hcur in HS'. injection HS' as <-.
      pose proof (lookup_lt_Some _ _ _ Hlook) as Hi.
      exists (constRng i), a. rewrite Hsel.
      rewrite (nextQuoteRaw_pick _ _ a S) by (done || by intros ->).
      cbn -[Nat.modulo]. rewrite Nat.mod_small by done.
      eexists. split; [done |]. rewrite HS. cbn. by rewrite Hlook.
  - split.
    + intros g. rewrite Hsel, nextQuoteRaw_nil by done.
      eexists _, _. split; [done |]. split; [done |]. by split; [left |].
    + intros S i q HS. unfold currentSet in HS. by rewrite Hq in HS.
Qed.

Lemma select_uncached_witness :
  (∀ g, ∃ r g',
     selectQuote noCache twoQuotes g = Ok (r, g') ∧
     (∀ p, r = Some p ->
        ∃ S q, currentSet twoQuotes = Some S ∧
               derefString twoQuotes r = Ok q ∧ q ∈ S) ∧
     (r = None ↔ quotes twoQuotes = None ∨ currentSet twoQuotes = Some [])) ∧
  (∀ S i q, currentSet twoQuotes = Some S -> S !! i = Some q ->
     ∃ g a g', selectQuote noCache twoQuotes g = Ok (Some (a, i), g') ∧
               derefString twoQuotes (Some (a, i)) = Ok q).
Proof.
  apply (select_uncached noCache twoQuotes).
  - simpl. lia.
  - intros a [= <-]. by eexists.
Defined.

(** C6.  With caching enabled [selectQuote] returns [quote] itself and
    leaves the random source as it was, so two calls on the same store
    return the same pointer whatever their random sources; and serving a
    request changes neither the store nor the random source. *)
Theorem select_cached_fixed (cfg : Config) (st : Store) :
  (0 < cache cfg)%Z ->
  (∀ g, selectQuote cfg st g = Ok (quote st, g)) ∧
  (∀ g1 g2 r1 r2 g1' g2',
     selectQuote cfg st g1 = Ok (r1, g1') ->
     selectQuote cfg st g2 = Ok (r2, g2') -> r1 = r2) ∧
  (∀ source ev g st' g',
     ev = GetQuote ∨ ev = GetHealth ->
     handle cfg source ev st g = Ok (st', g') -> st' = st ∧ g' = g).
Proof.
  intros Hc.
  assert (∀ g, selectQuote cfg st g = Ok (quote st, g)) as Hsel.
  { intros g. unfold selectQuote. apply Z.ltb_lt in Hc. by rewrite Hc. }
  split_and!; [done | |].
  - intros g1 g2 r1 r2 g1' g2'. rewrite !Hsel. congruence.
  - intros source ev g st' g' [->| ->]; cbn [handle].
    + unfold handleQuote. rewrite Hsel. cbn -[derefString].
      destruct (quote st) as [p|]; cbn -[derefString]; [|by intros [= <- <-]].
      destruct (derefString st (Some p)); cbn; [by intros [= <- <-] | done].
    + destruct (handleHealth st); cbn; [by intros [= <- <-] | done].
Qed.

Lemma select_cached_fixed_witness :
  (∀ g, selectQuote hourCache twoQuotes g = Ok (Some (0, 1), g)) ∧
  (∀ g1 g2 r1 r2 g1' g2',
     selectQuote hourCache twoQuotes g1 = Ok (r1, g1') ->
     selectQuote hourCache twoQuotes g2 = Ok (r2, g2') -> r1 = r2) ∧
  (∀ source ev g st' g',
     ev = GetQuote ∨ ev = GetHealth ->
     handle hourCache source ev twoQuotes g = Ok (st', g') ->
     st' = twoQuotes ∧ g' = g).
Proof. apply (select_cached_fixed hourCache twoQuotes). reflexivity. Defined.

(** C7.  For every input text the quotes are those of the text without its
    comment lines: a line that starts with [#] leaves both variables of the
    loop as they were, wherever it stands in the text.  A line [\#foo] is
    kept as the content line [#foo].  A line that is a lone backslash is
    kept as an empty line of the paragraph it stands in, which it does not
    end, where an empty line does end it. *)
Theorem comments_and_escapes :
  (∀ data, parseLoop (tokens data) =
           parseLoop (filter (λ l, isComment l = false) (tokens data))) ∧
  (∀ qs acc s, parseLine (qs, acc) ("#" +:+ s) = (qs, acc)) ∧
  (∀ st s rest, contains LF s = false -> fits ("#" +:+ s) = true ->
     fold_left parseLine (tokens ("#" +:+ s +:+ nl +:+ rest)) st
       = fold_left parseLine (tokens rest) st) ∧
  (∀ qs acc s, parseLine (qs, acc) ("\#" +:+ s) = (qs, acc ++ ["#" +:+ s])) ∧
  (∀ qs acc s rest, contains LF s = false -> fits ("\#" +:+ s) = true ->
     fold_left parseLine (tokens ("\#" +:+ s +:+ nl +:+ rest)) (qs, acc)
       = fold_left parseLine (tokens rest) (qs, acc ++ ["#" +:+ dropCR s])) ∧
  parseQuotes "\#foo" = (["#foo"], None) ∧
  (∀ qs acc, parseLine (qs, acc) "\" = (qs, acc ++ [""])) ∧
  (∀ qs acc rest,
     fold_left parseLine (tokens ("\" +:+ nl +:+ rest)) (qs, acc)
       = fold_left parseLine (tokens rest) (qs, acc ++ [""])) ∧
  (∀ a b, faithful a = true -> faithful b = true ->
     parseQuotes (a +:+ nl +:+ "\" +:+ nl +:+ b)
       = ([a +:+ nl +:+ nl +:+ b], None) ∧
     parseQuotes (a +:+ nl +:+ nl +:+ b) = ([a; b], None)).
Proof.
  split_and!.
  - intros data. apply fold_parseLine_comments.
  - apply parseLine_comment_line.
  - intros [qs acc] s rest H0 Hfit.
    change ("#" +:+ s +:+ nl +:+ rest) with (("#" +:+ s) +:+ String LF rest).
    rewrite tokens_text_line by done.
    cbn [fold_left]. by rewrite dropCR_hash, parseLine_comment_line.
  - apply parseLine_escaped_hash.
  - intros qs acc s rest H0 Hfit.
    change ("\#" +:+ s +:+ nl +:+ rest) with (("\#" +:+ s) +:+ String LF rest).
    rewrite tokens_text_line by done.
    cbn [fold_left]. by rewrite dropCR_escaped_hash, parseLine_escaped_hash.
  - reflexivity.
  - apply parseLine_backslash.
  - intros qs acc rest.
    change ("\" +:+ nl +:+ rest) with ("\" +:+ String LF rest).
    rewrite (tokens_token _ _ _ (Scan_backslash_line _)).
    cbn [fold_left]. by rewrite parseLine_backslash.
  - intros a b Ha Hb. split.
    + unfold parseQuotes, parseLoop.
      change (a +:+ nl +:+ "\" +:+ nl +:+ b)
        with (a +:+ String LF ("\" +:+ String LF b)).
      rewrite (tokens_token _ _ _ (Scan_line _ _ Ha)).
      rewrite (tokens_token _ _ _ (Scan_backslash_line _)).
      rewrite (tokens_token _ _ _ (Scan_last_line _ Hb)).
      rewrite (tokens_stop "") by done.
      cbn [fold_left].
      rewrite (parseLine_content _ _ _ Ha), parseLine_backslash.
      by rewrite (parseLine_content _ _ _ Hb).
    + by apply (parseQuotes_serialize [a; b]); [|repeat constructor].
Qed.

(** C8.  For every input text the last quote returned is the join of the
    accumulator as the loop left it, the empty string when that is empty,
    as it is when the last line was empty; and a text of empty lines only,
    a single one or none among them, gives exactly the one quote that is
    the empty string. *)
Theorem trailing_accumulator :
  (∀ data, last (parseQuotes data).1
           = Some (Join (parseLoop (tokens data)).2 nl)) ∧
  (∀ data, (parseLoop (tokens data)).2 = [] ->
           last (parseQuotes data).1 = Some ""%string) ∧
  (∀ data, last (tokens data) = Some ""%string ->
           last (parseQuotes data).1 = Some ""%string) ∧
  parseQuotes nl = ([""], None) ∧
  parseQuotes "" = ([""], None) ∧
  (∀ n, parseQuotes (blank n) = ([""], None)).
Proof.
  assert (∀ data, last (parseQuotes data).1
                  = Some (Join (parseLoop (tokens data)).2 nl)) as Hlast.
  { intros data. rewrite parseQuotes_eq. cbn [fst]. apply last_snoc. }
  split_and!; [done | | | done | done |].
  - intros data Hacc. by rewrite Hlast, Hacc.
  - intros data Htok. rewrite Hlast.
    destruct (tokens data) as [|t ts] eqn:E using rev_ind; [done |].
    rewrite last_snoc in Htok. injection Htok as ->.
    unfold parseLoop. rewrite fold_left_app. cbn [fold_left].
    by rewrite parseLine_empty_acc.
  - intros n. unfold parseQuotes, parseLoop.
    by rewrite tokens_blank, fold_parseLine_blank.
Qed.

(** C9.  A tick of the cache rotator on a store whose set is unset or
    empty sets [quote] to nil, changes nothing else, consumes no
    randomness and does not panic. *)
Theorem rotate_on_empty_set (cfg : Config) (source : string) (st : Store) (g : Rng) :
  quotes st = None ∨ currentSet st = Some [] ->
  rotateCache st g = Ok (setQuote None st, g) ∧
  ((0 < cache cfg)%Z ->
     handle cfg source CacheTick st g = Ok (setQuote None st, g)) ∧
  quote (setQuote None st) = None.
Proof.
  intros Hempty.
  assert (nextQuoteRaw st g = Ok (None, g)) as Hnext.
  { destruct Hempty as [Hnil|Hcur]; [by apply nextQuoteRaw_nil |].
    unfold currentSet in Hcur.
    destruct (quotes st) as [a|] eqn:Hq; [|done].
    by apply (nextQuoteRaw_empty _ _ a). }
  assert (rotateCache st g = Ok (setQuote None st, g)) as Hrot.
  { unfold rotateCache. by rewrite Hnext. }
  split_and!; [done | | done].
  intros Hc%Z.ltb_lt. cbn [handle]. by rewrite Hc.
Qed.

Lemma rotate_on_empty_set_witness :
  rotateCache emptySet (constRng 0) = Ok (emptySet, constRng 0) ∧
  ((0 < cache hourCache)%Z ->
     handle hourCache "quotes.txt" CacheTick emptySet (constRng 0)
       = Ok (emptySet, constRng 0)) ∧
  quote emptySet = None.
Proof.
  apply (rotate_on_empty_set hourCache "quotes.txt" emptySet (constRng 0)).
  right. reflexivity.
Defined.

(** C10.  For every input text [parseQuotes] returns a nil error and at
    least one quote; so every load that succeeds delivers a non-empty set,
    and the running daemon always holds a non-empty set. *)
Theorem parse_never_empty :
  (∀ data, ∃ q qs, parseQuotes data = (q :: qs, None)) ∧
  (∀ w source qs, fetchQuotes w source = (qs, None) -> qs ≠ []) ∧
  (∀ cfg source st, Reachable cfg source st ->
     ∃ qs, currentSet st = Some qs ∧ qs ≠ []).
Proof.
  split_and!.
  - intros data. destruct (parseQuotes data) as [qs e] eqn:E.
    destruct (parseQuotes_nonempty _ _ _ E) as [Hne ->].
    destruct qs as [|q qs]; [done |]. by exists q, qs.
  - apply fetchQuotes_nonempty.
  - intros cfg source st (a & qs & i & Hq & Hh & _ & Hi)%Reachable_wf.
    exists qs. split.
    + unfold currentSet. by rewrite Hq.
    + destruct qs; [simpl in Hi; lia | done].
Qed.

(** ** Further properties of the parser *)

Section TextFacts.

Implicit Types (l rest : string) (ls : list string).

Lemma append_empty_r (s : string) : s +:+ "" = s.
Proof.
  induction s as [|c s IH]; [done |].
  by rewrite append_cons, IH.
Qed.

Lemma append_assoc (s t u : string) : (s +:+ t) +:+ u = s +:+ t +:+ u.
Proof.
  induction s as [|c s IH]; [done |].
  by rewrite !append_cons, IH.
Qed.

Lemma len_append (s t : string) : len (s +:+ t) = len s + len t.
Proof.
  induction s as [|c s IH]; [done |].
  rewrite append_cons. simpl. by rewrite IH.
Qed.

Lemma contains_append (c : ascii) (s t : string) :
  contains c (s +:+ t) = contains c s || contains c t.
Proof.
  induction s as [|d s IH]; [done |].
  rewrite append_cons. simpl. by destruct (Ascii.eqb d c).
Qed.

Lemma fits_shorter (s t : string) :
  len s ≤ len t -> fits t = true -> fits s = true.
Proof. unfold fits. rewrite !N.ltb_lt. lia. Qed.

Lemma dropCR_snoc (l : string) : dropCR (l +:+ String CR "") = l.
Proof.
  induction l as [|c l IH]; [done |].
  rewrite append_cons.
  destruct (l +:+ String CR "") as [|d t] eqn:E.
  - by destruct l.
  - change (dropCR (String c (String d t))) with (String c (dropCR (String d t))).
    by rewrite IH.
Qed.

Lemma unlines_lf l ls :
  unlines nl (l :: ls) = l +:+ String LF (unlines nl ls).
Proof. reflexivity. Qed.

Lemma unlines_crlf l ls :
  unlines crlf (l :: ls) = (l +:+ String CR "") +:+ String LF (unlines crlf ls).
Proof. by rewrite append_assoc. Qed.

Lemma unlines_snoc ls l :
  unlines nl (ls ++ [l]) = unlines nl ls +:+ l +:+ String LF "".
Proof.
  induction ls as [|l' ls IH]; [done |].
  cbn [app]. by rewrite !unlines_lf, IH, append_assoc, append_cons.
Qed.

(** The scanner on terminated lines. *)
Lemma tokens_unlines ls rest :
  Forall (λ l, contains LF l = false) ls ->
  tokens (unlines nl ls +:+ rest) = deliver ls (tokens rest).
Proof.
  induction ls as [|l ls IH]; [done |].
  intros [Hl Hls]%Forall_cons.
  rewrite unlines_lf, append_assoc, append_cons. cbn [deliver].
  destruct (fits l) eqn:Hfit.
  - by rewrite tokens_text_line, IH.
  - by apply tokens_long_line.
Qed.

Lemma tokens_unlines_end ls :
  Forall (λ l, contains LF l = false) ls ->
  tokens (unlines nl ls) = deliver ls [].
Proof.
  intros H. rewrite <- (append_empty_r (unlines nl ls)).
  by rewrite tokens_unlines.
Qed.

(** A last line gives the same tokens with and without its line feed. *)
Lemma tokens_last_line l :
  contains LF l = false -> l ≠ ""%string ->
  tokens (l +:+ String LF "") = tokens l.
Proof.
  intros H0 Hne.
  assert (Scan l = if fits l then Some (dropCR l, ""%string) else None) as Hscan.
  { unfold Scan. rewrite (cutLine_whole _ H0). by destruct l. }
  destruct (fits l) eqn:Hfit.
  - rewrite tokens_text_line by done. by rewrite (tokens_token _ _ _ Hscan).
  - rewrite tokens_long_line by done. by rewrite (tokens_stop _ Hscan).
Qed.

End TextFacts.

Section FormatFacts.

Implicit Types (l rest : string) (ls p : list string).

Lemma parseQuotes_tokens (d1 d2 : string) :
  tokens d1 = tokens d2 -> parseQuotes d1 = parseQuotes d2.
Proof. unfold parseQuotes. by intros ->. Qed.

Lemma isComment_inv l : isComment l = true -> ∃ s, l = ("#" +:+ s)%string.
Proof.
  unfold isComment, HasPrefix. destruct l as [|c l]; [done |].
  cbn -[ascii_dec].
  destruct (ascii_dec "#" c) as [<-|]; [|done]. by exists l.
Qed.

(** Lines that are content or empty are delivered as they are. *)
Lemma deliver_plain ls (k : list string) :
  Forall (λ l, l = ""%string ∨ faithful l = true) ls -> deliver ls k = ls ++ k.
Proof.
  induction ls as [|l ls IH]; [done |].
  intros [Hl Hls]%Forall_cons. cbn [deliver app].
  destruct Hl as [->|Hl].
  - by rewrite (IH Hls).
  - apply faithful_spec in Hl as (_ & _ & _ & _ & _ & Hcr & ->).
    by rewrite (dropCR_id _ Hcr), (IH Hls).
Qed.

Lemma plain_noLF ls :
  Forall (λ l, l = ""%string ∨ faithful l = true) ls ->
  Forall (λ l, contains LF l = false) ls.
Proof.
  intros H. eapply Forall_impl; [exact H |].
  intros l [->|Hl]; [done |].
  by apply faithful_spec in Hl as (? & _).
Qed.

(** Content lines pile up in the accumulator. *)
Lemma fold_parseLine_content p (qs acc : list string) :
  Forall (λ l, faithful l = true) p ->
  fold_left parseLine p (qs, acc) = (qs, acc ++ p).
Proof.
  revert acc. induction p as [|l p IH]; intros acc.
  - by rewrite app_nil_r.
  - intros [Hl Hp]%Forall_cons. cbn [fold_left].
    rewrite (parseLine_content _ _ _ Hl), (IH _ Hp).
    by rewrite <- app_assoc.
Qed.

Lemma document_plain (paras : list (list string)) :
  Forall (λ p, Forall (λ l, faithful l = true) p) paras ->
  Forall (λ l, l = ""%string ∨ faithful l = true) (document paras).
Proof.
  induction paras as [|p paras IH]; [by constructor |].
  intros [Hp Hps]%Forall_cons.
  assert (Forall (λ l, l = ""%string ∨ faithful l = true) p) as Hp'.
  { eapply Forall_impl; [exact Hp | by right]. }
  destruct paras as [|p' paras]; [done |].
  change (document (p :: p' :: paras)) with (p ++ "" :: document (p' :: paras)).
  apply Forall_app. split; [done |].
  apply Forall_cons. split; [by left | by apply IH].
Qed.

Lemma fold_parseLine_document (paras : list (list string)) :
  paras ≠ [] ->
  Forall (λ p, p ≠ [] ∧ Forall (λ l, faithful l = true) p) paras ->
  ∀ qs0, ∃ qs acc,
    fold_left parseLine (document paras) (qs0, []) = (qs, acc) ∧
    qs ++ [Join acc nl] = qs0 ++ map (λ p, Join p nl) paras.
Proof.
  induction paras as [|p paras IH]; [done |].
  intros _ [[Hne Hp] Hps]%Forall_cons qs0.
  destruct paras as [|p' paras].
  - exists qs0, p. split; [|done].
    cbn [document]. by rewrite fold_parseLine_content.
  - destruct (IH ltac:(done) Hps (qs0 ++ [Join p nl]))
      as (qs & acc & Hfold & Hjoin).
    exists qs, acc. split.
    + change (document (p :: p' :: paras))
        with (p ++ "" :: document (p' :: paras)).
      rewrite fold_left_app, fold_parseLine_content by done.
      cbn [fold_left app]. rewrite parseLine_empty.
      destruct p as [|l p]; [done |]. exact Hfold.
    + rewrite Hjoin, <- app_assoc. done.
Qed.

(** Comment lines and empty lines leave an empty accumulator empty. *)
Lemma fold_parseLine_idle ls (qs : list string) :
  Forall (λ l, dropCR l = ""%string ∨ isComment l = true) ls ->
  fold_left parseLine (deliver ls []) (qs, []) = (qs, []).
Proof.
  induction ls as [|l ls IH]; [done |].
  intros [Hl Hls]%Forall_cons. cbn [deliver].
  destruct (fits l); [|done]. cbn [fold_left].
  destruct Hl as [->|[s ->]%isComment_inv].
  - change (parseLine (qs, []) "") with (qs, @nil string). by apply IH.
  - by rewrite dropCR_hash, parseLine_comment_line, IH.
Qed.

End FormatFacts.

(** X1.  A line feed behind the last line of a text makes no difference:
    the text of the lines [ls], each with its line feed, followed by a
    non-empty line [l] parses to the same quotes with and without a line
    feed behind [l]. *)
Theorem final_newline_irrelevant (ls : list string) (l : string) :
  Forall (λ l, contains LF l = false) ls ->
  contains LF l = false -> l ≠ ""%string ->
  parseQuotes (unlines nl ls +:+ l) = parseQuotes (unlines nl (ls ++ [l])).
Proof.
  intros Hls Hl Hne. apply parseQuotes_tokens.
  rewrite unlines_snoc, !tokens_unlines by done.
  by rewrite tokens_last_line.
Qed.

Lemma final_newline_irrelevant_witness :
  parseQuotes (unlines nl ["first"; ""] +:+ "second")
  = parseQuotes (unlines nl (["first"; ""] ++ ["second"])).
Proof.
  apply (final_newline_irrelevant ["first"; ""] "second");
    [by repeat constructor | reflexivity | discriminate].
Defined.

(** X2.  A text with carriage return and line feed behind every line
    parses to the same quotes as the text with line feeds only, when no
    line ends in a carriage return of its own and every line fits the
    scanner with its carriage return. *)
Theorem crlf_same_quotes (ls : list string) :
  Forall (λ l, contains LF l = false ∧ lastByte l ≠ Some CR ∧
               fits (l +:+ String CR "") = true) ls ->
  parseQuotes (unlines crlf ls) = parseQuotes (unlines nl ls).
Proof.
  intros Hls. apply parseQuotes_tokens.
  induction ls as [|l ls IH]; [done |].
  apply Forall_cons in Hls as [(H0 & Hcr & Hfit) Hls].
  rewrite unlines_crlf, unlines_lf.
  assert (fits l = true) as Hfit'.
  { eapply fits_shorter; [|exact Hfit]. rewrite len_append. lia. }
  rewrite !tokens_text_line; try done.
  - by rewrite dropCR_snoc, (dropCR_id _ Hcr), (IH Hls).
  - by rewrite contains_append, H0.
Qed.

Lemma crlf_same_quotes_witness :
  parseQuotes (unlines crlf ["first"; ""; "second"; "line"])
  = parseQuotes (unlines nl ["first"; ""; "second"; "line"]).
Proof.
  apply (crlf_same_quotes ["first"; ""; "second"; "line"]).
  repeat constructor; discriminate.
Defined.

(** X3.  A quote file written as paragraphs of content lines, an empty
    line between two paragraphs, parses to one quote per paragraph, in
    order: the lines of the paragraph joined by line feeds. *)
Theorem paragraphs_parse (paras : list (list string)) :
  paras ≠ [] ->
  Forall (λ p, p ≠ [] ∧ Forall (λ l, faithful l = true) p) paras ->
  parseQuotes (unlines nl (document paras))
  = (map (λ p, Join p nl) paras, None).
Proof.
  intros Hne Hall.
  assert (Forall (λ l, l = ""%string ∨ faithful l = true) (document paras))
    as Hplain.
  { apply document_plain. eapply Forall_impl; [exact Hall | by intros p []]. }
  destruct (fold_parseLine_document paras Hne Hall [])
    as (qs & acc & Hfold & Hjoin).
  unfold parseQuotes, parseLoop.
  rewrite tokens_unlines_end by by apply plain_noLF.
  rewrite deliver_plain, app_nil_r by done.
  by rewrite Hfold, Hjoin.
Qed.

Lemma paragraphs_parse_witness :
  parseQuotes (unlines nl (document [["first"]; ["second"; "line"]]))
  = (map (λ p, Join p nl) [["first"]; ["second"; "line"]], None).
Proof.
  apply (paragraphs_parse [["first"]; ["second"; "line"]]); [discriminate |].
  repeat constructor; discriminate.
Defined.

(** X4.  A text in which every line is empty (or a lone carriage return)
    or a comment parses to exactly one quote, the empty string. *)
Theorem idle_text_one_empty_quote (ls : list string) :
  Forall (λ l, contains LF l = false) ls ->
  Forall (λ l, dropCR l = ""%string ∨ isComment l = true) ls ->
  parseQuotes (unlines nl ls) = ([""], None).
Proof.
  intros H0 Hidle. unfold parseQuotes, parseLoop.
  by rewrite tokens_unlines_end, fold_parseLine_idle.
Qed.

Lemma idle_text_one_empty_quote_witness :
  parseQuotes (unlines nl ["# a comment"; ""; String CR ""; "#"])
  = ([""], None).
Proof.
  apply (idle_text_one_empty_quote ["# a comment"; ""; String CR ""; "#"]).
  - by repeat constructor.
  - repeat constructor; (by left) || (by right).
Defined.

(** X5.  A line of 64 KiB or more ends the input silently: the quotes are
    those of the lines before it, whatever follows it, and the error is
    nil. *)
Theorem long_line_cuts_text (ls : list string) (l rest : string) :
  Forall (λ l, contains LF l = false) ls ->
  contains LF l = false -> fits l = false ->
  parseQuotes (unlines nl ls +:+ l +:+ nl +:+ rest)
  = parseQuotes (unlines nl ls) ∧
  (parseQuotes (unlines nl ls +:+ l +:+ nl +:+ rest)).2 = None.
Proof.
  intros Hls Hl Hfit.
  assert (tokens (unlines nl ls +:+ l +:+ nl +:+ rest) = tokens (unlines nl ls))
    as Htok.
  { rewrite tokens_unlines, tokens_unlines_end by done.
    change (l +:+ nl +:+ rest) with (l +:+ String LF rest).
    by rewrite tokens_long_line. }
  split; [by apply parseQuotes_tokens |].
  by rewrite parseQuotes_eq.
Qed.

Lemma long_line_cuts_text_witness :
  parseQuotes (unlines nl ["first"; ""] +:+ longLine +:+ nl +:+ "second")
  = parseQuotes (unlines nl ["first"; ""]) ∧
  (parseQuotes (unlines nl ["first"; ""] +:+ longLine +:+ nl +:+ "second")).2
  = None.
Proof.
  apply (long_line_cuts_text ["first"; ""] longLine "second").
  - repeat constructor.
  - vm_compute. reflexivity.
  - vm_compute. reflexivity.
Defined.

(** ** Further properties of the store and the handlers *)

Section ServingFacts.

Implicit Types (st : Store) (g : Rng) (cfg : Config) (S : list string).

Lemma currentSet_Some st S :
  currentSet st = Some S ↔ ∃ a, quotes st = Some a ∧ heap st !! a = Some S.
Proof.
  unfold currentSet. destruct (quotes st) as [a|]; cbn.
  - split; [by exists a | by intros (? & [= <-] & ?)].
  - split; [done | by intros (? & ? & ?)].
Qed.

Lemma wf_currentSet st :
  wf st -> ∃ S, currentSet st = Some S ∧ S ≠ [].
Proof.
  intros (a & S & i & Hq & Hh & _ & Hi). exists S. split.
  - apply currentSet_Some. by exists a.
  - destruct S; [simpl in Hi; lia | done].
Qed.

(** With caching enabled, [/] answers with what [quote] points to. *)
Lemma handleQuote_cached cfg st g (a : addr) (i : nat) S (q : string) :
  (0 < cache cfg)%Z ->
  quote st = Some (a, i) -> heap st !! a = Some S -> S !! i = Some q ->
  handleQuote cfg st g = Ok ({| status := 200; body := q +:+ nl |}, g).
Proof.
  intros Hc%Z.ltb_lt Hsel Hh Hi. unfold handleQuote, selectQuote.
  rewrite Hc. cbn. rewrite Hsel. cbn. rewrite Hh. cbn. by rewrite Hi.
Qed.

(** With caching disabled, it answers with the element the draw selects. *)
Lemma handleQuote_fresh cfg st g (a : addr) S (q : string) :
  (cache cfg ≤ 0)%Z ->
  quotes st = Some a -> heap st !! a = Some S ->
  S !! (draws g (pos g) mod length S) = Some q ->
  handleQuote cfg st g
    = Ok ({| status := 200; body := q +:+ nl |}, advance g).
Proof.
  intros Hc Hq Hh Hi. unfold handleQuote, selectQuote.
  destruct (Z.ltb_spec 0 (cache cfg)) as [|_]; [lia |].
  assert (S ≠ []) as Hne by (intros ->; done).
  rewrite (nextQuoteRaw_pick _ _ a S) by done.
  cbn -[Nat.modulo]. rewrite Hh. cbn -[Nat.modulo]. by rewrite Hi.
Qed.

Lemma handleQuote_wf cfg st g :
  wf st ->
  ∃ S q g', currentSet st = Some S ∧ q ∈ S ∧
    handleQuote cfg st g = Ok ({| status := 200; body := q +:+ nl |}, g') ∧
    ((0 < cache cfg)%Z -> derefString st (quote st) = Ok q ∧ g' = g).
Proof.
  intros (a & S & i & Hq & Hh & Hsel & Hi).
  assert (currentSet st = Some S) as Hcur by (apply currentSet_Some; eauto).
  destruct (Z.ltb_spec 0 (cache cfg)) as [Hc|Hc].
  - destruct (lookup_lt_is_Some_2 _ _ Hi) as [q Hlook].
    exists S, q, g. split_and!; [done | by eapply list_elem_of_lookup_2 | |].
    + by eapply handleQuote_cached.
    + intros _. split; [|done]. rewrite Hsel. cbn. rewrite Hh. cbn.
      by rewrite Hlook.
  - assert (draws g (pos g) mod length S < length S) as Hlt.
    { apply Nat.mod_upper_bound. lia. }
    destruct (lookup_lt_is_Some_2 _ _ Hlt) as [q Hlook].
    exists S, q, (advance g).
    split_and!; [done | by eapply list_elem_of_lookup_2 | | lia].
    by eapply handleQuote_fresh.
Qed.

Lemma handle_request cfg (source : string) (ev : event) st g :
  wf st -> isRequest ev = true ->
  ∃ g', handle cfg source ev st g = Ok (st, g') ∧
        ((0 < cache cfg)%Z -> g' = g).
Proof.
  intros Hwf Hreq. destruct ev; try done; cbn [handle].
  - destruct (handleQuote_wf cfg st g Hwf) as (S & q & g' & _ & _ & -> & Hg).
    exists g'. split; [done |]. intros Hc. by apply Hg.
  - destruct Hwf as (a & ? & ? & Hq & _).
    rewrite handleHealth_set by by rewrite Hq.
    by exists g.
Qed.

Lemma runEvents_requests cfg (source : string) (evs : list event) st g :
  wf st -> Forall (λ ev, isRequest ev = true) evs ->
  ∃ g', runEvents cfg source evs st g = Ok (st, g') ∧
        ((0 < cache cfg)%Z -> g' = g).
Proof.
  intros Hwf. revert g. induction evs as [|ev evs IH]; intros g Hall.
  - by exists g.
  - apply Forall_cons in Hall as [Hev Hevs].
    destruct (handle_request cfg source ev st g Hwf Hev) as (g1 & Hh & Hg1).
    destruct (IH g1 Hevs) as (g2 & Hrun & Hg2).
    exists g2. cbn [runEvents]. rewrite Hh. cbn. split; [done |].
    intros Hc. by rewrite (Hg2 Hc), (Hg1 Hc).
Qed.

Lemma runEvents_reachable cfg (source : string) (evs : list event) st g :
  Reachable cfg source st ->
  ∃ st' g', runEvents cfg source evs st g = Ok (st', g') ∧
            Reachable cfg source st'.
Proof.
  revert st g. induction evs as [|ev evs IH]; intros st g Hr.
  - by exists st, g.
  - destruct (wf_handle cfg source ev st g (Reachable_wf _ _ _ Hr))
      as (st1 & g1 & Hh & _).
    destruct (IH st1 g1 (Reachable_step _ _ _ _ _ _ _ Hr Hh))
      as (st2 & g2 & Hrun & Hr2).
    exists st2, g2. cbn [runEvents]. rewrite Hh. by cbn.
Qed.

End ServingFacts.

(** X6.  In the running daemon [/] never reports unavailability: it
    answers 200 with a quote of the current set followed by a line feed;
    with caching enabled that quote is the cached one and no randomness is
    consumed. *)
Theorem root_serves_quote (cfg : Config) (source : string) (st : Store) (g : Rng) :
  Reachable cfg source st ->
  ∃ S q g', currentSet st = Some S ∧ q ∈ S ∧
    handleQuote cfg st g = Ok ({| status := 200; body := q +:+ nl |}, g') ∧
    ((0 < cache cfg)%Z -> derefString st (quote st) = Ok q ∧ g' = g).
Proof. intros Hr. by apply handleQuote_wf, (Reachable_wf cfg source). Qed.

Lemma root_serves_quote_witness :
  ∃ S q g', currentSet twoQuotes = Some S ∧ q ∈ S ∧
    handleQuote hourCache twoQuotes (constRng 0)
      = Ok ({| status := 200; body := q +:+ nl |}, g') ∧
    ((0 < cache hourCache)%Z ->
       derefString twoQuotes (quote twoQuotes) = Ok q ∧ g' = constRng 0).
Proof.
  apply (root_serves_quote hourCache "quotes.txt" twoQuotes (constRng 0)).
  apply (Reachable_start _ _
           (fileWorld ("first" +:+ nl +:+ nl +:+ "second")) (constRng 1)
           twoQuotes (advance (constRng 1))).
  reflexivity.
Defined.

(** X7.  [/] answers 503 with an empty body, and consumes no randomness,
    when caching is enabled and nothing is cached, and when caching is
    disabled and the set is unset or empty. *)
Theorem root_unavailable (cfg : Config) (st : Store) (g : Rng) :
  (0 < cache cfg)%Z ∧ quote st = None ∨
  (cache cfg ≤ 0)%Z ∧ (quotes st = None ∨ currentSet st = Some []) ->
  handleQuote cfg st g = Ok ({| status := 503; body := "" |}, g).
Proof.
  unfold handleQuote, selectQuote. intros [[Hc%Z.ltb_lt Hsel]|[Hc Hset]].
  - rewrite Hc. cbn. by rewrite Hsel.
  - destruct (Z.ltb_spec 0 (cache cfg)) as [|_]; [lia |].
    assert (nextQuoteRaw st g = Ok (None, g)) as ->; [|done].
    destruct Hset as [Hnil|[a [Hq Hh]]%currentSet_Some].
    + by apply nextQuoteRaw_nil.
    + by apply (nextQuoteRaw_empty _ _ a).
Qed.

Lemma root_unavailable_witness :
  handleQuote noCache emptySet (constRng 0)
  = Ok ({| status := 503; body := "" |}, constRng 0).
Proof.
  apply (root_unavailable noCache emptySet (constRng 0)).
  right. split; [simpl; lia | right; reflexivity].
Defined.

(** X8.  Requests change nothing: after any sequence of requests for [/]
    and [/health] the running daemon is in the store it was in, and with
    caching enabled the random source is untouched as well. *)
Theorem requests_keep_store
    (cfg : Config) (source : string) (evs : list event) (st : Store) (g : Rng) :
  Reachable cfg source st -> Forall (λ ev, isRequest ev = true) evs ->
  ∃ g', runEvents cfg source evs st g = Ok (st, g') ∧
        ((0 < cache cfg)%Z -> g' = g).
Proof.
  intros Hr. by apply runEvents_requests, (Reachable_wf cfg source).
Qed.

Lemma requests_keep_store_witness :
  ∃ g', runEvents hourCache "quotes.txt" [GetQuote; GetHealth; GetQuote]
          twoQuotes (constRng 0) = Ok (twoQuotes, g') ∧
        ((0 < cache hourCache)%Z -> g' = constRng 0).
Proof.
  apply (requests_keep_store hourCache "quotes.txt"
           [GetQuote; GetHealth; GetQuote] twoQuotes (constRng 0)).
  - apply (Reachable_start _ _
             (fileWorld ("first" +:+ nl +:+ nl +:+ "second")) (constRng 1)
             twoQuotes (advance (constRng 1))).
    reflexivity.
  - repeat constructor.
Defined.

(** X9.  Once started the daemon never panics: whatever sequence of timer
    ticks, signals and requests arrives, in whatever world the reloads
    find, every event is handled, the store reached is again one of the
    running daemon, and it holds a non-empty set. *)
Theorem daemon_never_panics
    (cfg : Config) (source : string) (evs : list event) (st : Store) (g : Rng) :
  Reachable cfg source st ->
  ∃ st' g' S, runEvents cfg source evs st g = Ok (st', g') ∧
    Reachable cfg source st' ∧ currentSet st' = Some S ∧ S ≠ [].
Proof.
  intros Hr.
  destruct (runEvents_reachable cfg source evs st g Hr) as (st' & g' & Hrun & Hr').
  destruct (wf_currentSet st' (Reachable_wf _ _ _ Hr')) as (S & Hcur & Hne).
  by exists st', g', S.
Qed.

Lemma daemon_never_panics_witness :
  ∃ st' g' S,
    runEvents hourCache "quotes.txt"
      [GetQuote; Sighup deadWorld; CacheTick; Sighup (fileWorld "third");
       GetHealth; ReloadTick deadWorld; GetQuote]
      twoQuotes (constRng 0) = Ok (st', g') ∧
    Reachable hourCache "quotes.txt" st' ∧ currentSet st' = Some S ∧ S ≠ [].
Proof.
  apply (daemon_never_panics hourCache "quotes.txt" _ twoQuotes (constRng 0)).
  apply (Reachable_start _ _
           (fileWorld ("first" +:+ nl +:+ nl +:+ "second")) (constRng 1)
           twoQuotes (advance (constRng 1))).
  reflexivity.
Defined.

(** X10.  A tick of the cache rotator on a non-empty set consumes one
    draw, leaves the set as it is, and makes the element at the draw
    modulo the length the cached quote: with caching enabled that is what
    [/] answers from then on, whatever the random source. *)
Theorem rotate_selects_from_set
    (cfg : Config) (st : Store) (g : Rng) (S : list string) :
  currentSet st = Some S -> S ≠ [] ->
  ∃ st' q, rotateCache st g = Ok (st', advance g) ∧
    currentSet st' = Some S ∧ heap st' = heap st ∧
    S !! (draws g (pos g) mod length S) = Some q ∧
    ((0 < cache cfg)%Z -> ∀ g2,
       handleQuote cfg st' g2
         = Ok ({| status := 200; body := q +:+ nl |}, g2)).
Proof.
  intros [a [Hq Hh]]%currentSet_Some Hne.
  assert (draws g (pos g) mod length S < length S) as Hlt.
  { apply Nat.mod_upper_bound. destruct S; [done | simpl; lia]. }
  destruct (lookup_lt_is_Some_2 _ _ Hlt) as [q Hlook].
  eexists _, q. unfold rotateCache.
  rewrite (nextQuoteRaw_pick _ _ a S) by done. cbn -[Nat.modulo].
  split_and!; [done | | done | done |].
  - apply currentSet_Some. by exists a.
  - intros Hc g2. by eapply handleQuote_cached.
Qed.

Lemma rotate_selects_from_set_witness :
  ∃ st' q, rotateCache twoQuotes (constRng 2) = Ok (st', advance (constRng 2)) ∧
    currentSet st' = Some ["first"; "second"] ∧ heap st' = heap twoQuotes ∧
    ["first"; "second"] !! (draws (constRng 2) (pos (constRng 2))
                            mod length ["first"; "second"]) = Some q ∧
    ((0 < cache hourCache)%Z -> ∀ g2,
       handleQuote hourCache st' g2
         = Ok ({| status := 200; body := q +:+ nl |}, g2)).
Proof.
  apply (rotate_selects_from_set hourCache twoQuotes (constRng 2)
           ["first"; "second"]); [reflexivity | discriminate].
Defined.

(** ** Further properties of the loader *)

Section LoaderFacts.

Lemma fetchQuotes_file (w : World) (source : string) :
  HasPrefix source "https://" = false -> HasPrefix source "http://" = false ->
  fetchQuotes w source = loadQuotesFromFile w source.
Proof. unfold fetchQuotes. by intros -> ->. Qed.

Lemma fetchQuotes_url (w : World) (source : string) :
  HasPrefix source "https://" = true ∨ HasPrefix source "http://" = true ->
  fetchQuotes w source = loadQuotesFromURL w source.
Proof.
  unfold fetchQuotes. intros [->| ->]; [done |].
  by destruct (HasPrefix source "https://").
Qed.

End LoaderFacts.

(** X11.  A load never returns quotes together with an error: either the
    error is nil and the quotes are those parsed from the file that was
    opened, or from the body of an answer with status 200; or there is an
    error and the list of quotes is empty. *)
Theorem fetch_quotes_or_error
    (w : World) (source : string) (qs : list string) (err : option error) :
  fetchQuotes w source = (qs, err) ->
  (err = None ∧ ∃ data, parseQuotes data = (qs, None) ∧
     (openFile w source = inr data ∨ httpGet w source = inr (200, data))) ∨
  (err ≠ None ∧ qs = []).
Proof.
  assert (∀ data, parseQuotes data = (qs, err) ->
            err = None ∧ parseQuotes data = (qs, None)) as Hparse.
  { intros data H. destruct (parseQuotes_nonempty _ _ _ H) as [_ ->]. done. }
  assert (loadQuotesFromURL w source = (qs, err) ->
    (err = None ∧ ∃ data, parseQuotes data = (qs, None) ∧
       (openFile w source = inr data ∨ httpGet w source = inr (200, data))) ∨
    (err ≠ None ∧ qs = [])) as Hurl.
  { unfold loadQuotesFromURL.
    destruct (httpGet w source) as [e|[code body]] eqn:E.
    - intros [= <- <-]. by right.
    - destruct (Nat.eqb_spec code 200) as [->|Hne]; cbn [negb].
      + intros [-> H]%Hparse. left. split; [done |]. exists body. eauto.
      + intros [= <- <-]. by right. }
  unfold fetchQuotes.
  destruct (HasPrefix source "https://"); [done |].
  destruct (HasPrefix source "http://"); [done |].
  unfold loadQuotesFromFile. destruct (openFile w source) as [e|data] eqn:E.
  - intros [= <- <-]. by right.
  - intros [-> H]%Hparse. left. split; [done |]. exists data. eauto.
Qed.

Lemma fetch_quotes_or_error_witness :
  (Some (ErrOpen "quotes.txt") = None ∧
     ∃ data, parseQuotes data = ([], None) ∧
       (openFile deadWorld "quotes.txt" = inr data ∨
        httpGet deadWorld "quotes.txt" = inr (200, data))) ∨
  (Some (ErrOpen "quotes.txt") ≠ None ∧ @nil string = []).
Proof.
  apply (fetch_quotes_or_error deadWorld "quotes.txt" []
           (Some (ErrOpen "quotes.txt"))).
  reflexivity.
Defined.

(** X12.  For a source that is a URL, an answer with a status other than
    200 is an error that carries the status, whatever the body holds, and
    a reload that meets it leaves the store as it is. *)
Theorem url_status_error
    (w : World) (source : string) (code : nat) (data : string)
    (st : Store) (g : Rng) :
  HasPrefix source "https://" = true ∨ HasPrefix source "http://" = true ->
  httpGet w source = inr (code, data) -> code ≠ 200 ->
  fetchQuotes w source = ([], Some (ErrStatus code)) ∧
  reloadQuotes w source st g = Ok (Some (ErrStatus code), st, g).
Proof.
  intros Hurl Hget Hcode.
  assert (fetchQuotes w source = ([], Some (ErrStatus code))) as Hf.
  { rewrite fetchQuotes_url by done. unfold loadQuotesFromURL. rewrite Hget.
    by destruct (Nat.eqb_spec code 200). }
  split; [done |]. unfold reloadQuotes. by rewrite Hf.
Qed.

Lemma url_status_error_witness :
  fetchQuotes (httpWorld 404 "first") "https://example.org/quotes"
    = ([], Some (ErrStatus 404)) ∧
  reloadQuotes (httpWorld 404 "first") "https://example.org/quotes"
    twoQuotes (constRng 0) = Ok (Some (ErrStatus 404), twoQuotes, constRng 0).
Proof.
  apply (url_status_error (httpWorld 404 "first") "https://example.org/quotes"
           404 "first" twoQuotes (constRng 0));
    [left; reflexivity | reflexivity | lia].
Defined.

(** X13.  The source decides alone where the quotes come from: for a
    source that starts with [http://] or [https://] the file system is
    never consulted, for every other source no request is made. *)
Theorem fetch_source_dispatch (w1 w2 : World) (source : string) :
  (if HasPrefix source "https://" || HasPrefix source "http://"
   then httpGet w1 source = httpGet w2 source
   else openFile w1 source = openFile w2 source) ->
  fetchQuotes w1 source = fetchQuotes w2 source.
Proof.
  unfold fetchQuotes, loadQuotesFromURL, loadQuotesFromFile.
  destruct (HasPrefix source "https://"), (HasPrefix source "http://");
    cbn [orb]; by intros ->.
Qed.

Lemma fetch_source_dispatch_witness :
  fetchQuotes (httpWorld 200 "first") "http://example.org/quotes"
  = fetchQuotes {| openFile := λ _, inr "second"%string;
                   httpGet := λ _, inr (200, "first"%string) |}
      "http://example.org/quotes".
Proof.
  apply (fetch_source_dispatch (httpWorld 200 "first")
           {| openFile := λ _, inr "second"%string;
              httpGet := λ _, inr (200, "first"%string) |}
           "http://example.org/quotes").
  reflexivity.
Defined.

(** X14.  From the file to the answer: started on a file that holds a
    non-empty list of faithful quotes joined by blank lines, the daemon
    holds exactly that list, has consumed one draw, and answers every
    request for [/] with 200 and one quote of the list followed by a line
    feed. *)
Theorem start_then_serve
    (cfg : Config) (w : World) (source : string) (l : list string) (g : Rng) :
  HasPrefix source "https://" = false -> HasPrefix source "http://" = false ->
  openFile w source = inr (serialize l) ->
  l ≠ [] -> Forall (λ q, faithful q = true) l ->
  ∃ st, reloadQuotes w source initStore g = Ok (None, st, advance g) ∧
    Reachable cfg source st ∧ currentSet st = Some l ∧
    ∀ g2, ∃ q g3, q ∈ l ∧
      handleQuote cfg st g2 = Ok ({| status := 200; body := q +:+ nl |}, g3).
Proof.
  intros Hs Hp Hopen Hne Hall.
  assert (fetchQuotes w source = (l, None)) as Hf.
  { rewrite fetchQuotes_file by done. unfold loadQuotesFromFile.
    rewrite Hopen. by apply parseQuotes_serialize. }
  assert (reloadQuotes w source initStore g
          = Ok (None,
                {| heap := [l]; quotes := Some 0;
                   quote := Some (0, draws g (pos g) mod length l) |},
                advance g)) as Hr.
  { unfold reloadQuotes. rewrite Hf, reloadLocked_pick by done. done. }
  eexists. split; [exact Hr |].
  assert (Reachable cfg source
            {| heap := [l]; quotes := Some 0;
               quote := Some (0, draws g (pos g) mod length l) |}) as Hreach.
  { eapply Reachable_start, Hr. }
  split_and!; [done | done |].
  intros g2.
  destruct (handleQuote_wf cfg _ g2 (Reachable_wf _ _ _ Hreach))
    as (S & q & g3 & [= <-] & Hin & Hh & _).
  by exists q, g3.
Qed.

Lemma start_then_serve_witness :
  ∃ st, reloadQuotes (fileWorld (serialize ["first"; "second"])) "quotes.txt"
          initStore (constRng 1) = Ok (None, st, advance (constRng 1)) ∧
    Reachable noCache "quotes.txt" st ∧
    currentSet st = Some ["first"; "second"] ∧
    ∀ g2, ∃ q g3, q ∈ ["first"; "second"] ∧
      handleQuote noCache st g2
        = Ok ({| status := 200; body := q +:+ nl |}, g3).
Proof.
  apply (start_then_serve noCache (fileWorld (serialize ["first"; "second"]))
           "quotes.txt" ["first"; "second"] (constRng 1));
    [reflexivity | reflexivity | reflexivity | discriminate |].
  repeat constructor.
Defined.

(** ** Blank lines *)

Section BlankLineFacts.

Implicit Types (ls k : list string).

Lemma deliver_app ls1 ls2 k :
  deliver (ls1 ++ ls2) k = deliver ls1 (deliver ls2 k).
Proof.
  induction ls1 as [|l ls1 IH]; [done |].
  cbn [app deliver]. by rewrite IH.
Qed.

(** The lines are all delivered, or the scan ends within them. *)
Lemma deliver_cases ls :
  ∃ pre, (∀ k, deliver ls k = pre ++ k) ∨ (∀ k, deliver ls k = pre).
Proof.
  induction ls as [|l ls [pre [IH|IH]]].
  - exists []. by left.
  - cbn [deliver]. destruct (fits l).
    + exists (dropCR l :: pre). left. intros k. by rewrite IH.
    + exists []. by right.
  - cbn [deliver]. destruct (fits l).
    + exists (dropCR l :: pre). right. intros k. by rewrite IH.
    + exists []. by right.
Qed.

Lemma parseLine_empty_twice (st : list string * list string) :
  parseLine (parseLine st "") "" = parseLine st "".
Proof. destruct st as [qs [|l acc]]; reflexivity. Qed.

Lemma parseQuotes_loop (d1 d2 : string) :
  parseLoop (tokens d1) = parseLoop (tokens d2) ->
  parseQuotes d1 = parseQuotes d2.
Proof. unfold parseQuotes. by intros ->. Qed.

End BlankLineFacts.

(** X15.  Blank lines do not add up: a second empty line directly behind
    an empty line changes nothing, wherever in the text it stands, and
    neither does an empty line in front of the text. *)
Theorem blank_lines_collapse (ls1 ls2 : list string) :
  Forall (λ l, contains LF l = false) ls1 ->
  Forall (λ l, contains LF l = false) ls2 ->
  parseQuotes (unlines nl (ls1 ++ "" :: "" :: ls2))
  = parseQuotes (unlines nl (ls1 ++ "" :: ls2)) ∧
  parseQuotes (unlines nl ("" :: ls2)) = parseQuotes (unlines nl ls2).
Proof.
  intros H1 H2. split.
  - apply parseQuotes_loop.
    rewrite !tokens_unlines_end
      by (apply Forall_app; split; [done | by repeat apply Forall_cons_2]).
    rewrite !deliver_app.
    change (deliver ("" :: "" :: ls2) []) with ("" :: "" :: deliver ls2 []).
    change (deliver ("" :: ls2) []) with ("" :: deliver ls2 []).
    destruct (deliver_cases ls1) as [pre [Hpre|Hpre]]; rewrite !Hpre; [|done].
    unfold parseLoop. rewrite !fold_left_app. cbn [fold_left].
    by rewrite parseLine_empty_twice.
  - apply parseQuotes_loop.
    rewrite !tokens_unlines_end by by repeat apply Forall_cons_2.
    reflexivity.
Qed.

Lemma blank_lines_collapse_witness :
  parseQuotes (unlines nl (["first"] ++ "" :: "" :: ["second"]))
  = parseQuotes (unlines nl (["first"] ++ "" :: ["second"])) ∧
  parseQuotes (unlines nl ("" :: ["second"]))
  = parseQuotes (unlines nl ["second"]).
Proof.
  apply (blank_lines_collapse ["first"] ["second"]); by repeat constructor.
Defined.
